(** * djcelery_transactions: tasks deferred until the transaction resolves

    A shallow embedding of [djcelery_transactions/__init__.py].

    The module keeps one list of pending invocations per thread
    ([threading.local]), appends to it in [PostTransactionTask.apply_async]
    while the connection is in an atomic block, and empties it in the two
    signal handlers [_send_tasks] (post_commit) and [_discard_tasks]
    (post_rollback).

    Python objects that are mutated in place (the per-thread list) live in a
    heap of list objects addressed by locations, so that "the same list
    instance" is a statement about locations.  Code that can raise runs in a
    small state-and-exception monad.  Threads are interleaved twice: call by
    call ([run]), and operation by operation inside calls ([fine_run]). *)

From stdpp Require Import base option list strings gmap.

Set Default Proof Using "Type".

(** Threads and list objects are identified by numbers. *)
Definition tid := nat.
Definition loc := nat.

(** ** Exceptions and outcomes *)

(** What a call can raise: [IndexError] from [list.pop] on an empty list, or
    whatever the transport ([celery.Task.apply_async]) raises. *)
Inductive exception (exn : Type) : Type :=
| IndexError
| TransportError (e : exn).
Arguments IndexError {exn}.
Arguments TransportError {exn} e.

(** The outcome of running a piece of code: a value, a raised exception, or
    [OutOfFuel] when a bounded loop of the model was cut short (shown below
    never to happen for [_send_tasks]). *)
Inductive outcome (exn A : Type) : Type :=
| Return (a : A)
| Raise (e : exception exn)
| OutOfFuel.
Arguments Return {exn A} a.
Arguments Raise {exn A} e.
Arguments OutOfFuel {exn A}.

(** The external transport: [celery.Task.apply_async], reached through
    [super(PostTransactionTask, self).apply_async].  It
    either returns a result handle or raises. *)
Class Transport (task args kwargs result exn : Type) : Type :=
  Task_apply_async : task → args → kwargs → result + exn.

Section Model.
Context {task args kwargs result exn : Type}.
Context `{!Transport task args kwargs result exn}.

(** The tuple [(self, args, kwargs)] stored in the queue. *)
Definition invocation : Type := task * args * kwargs.

(** The calls the module makes on its queue and on the transport, in the
    order they happen.  No function of the model reads this log. *)
Inductive event : Type :=
| Appended (t : tid) (i : invocation)      (* queue.append(i) *)
| Popped (t : tid) (i : invocation)        (* queue.pop(0) returned i *)
| Cleared (t : tid) (q : list invocation)  (* queue[:] = [] dropped q *)
| Sent (t : tid) (i : invocation).         (* Task.apply_async called on i *)

Record state : Type := State {
  (** [_thread_data.__dict__], one dictionary per thread *)
  thread_data : gmap tid (gmap string loc);
  (** the list objects *)
  heap : gmap loc (list invocation);
  (** the next unused location *)
  next_loc : loc;
  (** the threads whose [get_connection().in_atomic_block] is true *)
  in_atomic_block : gset tid;
  (** [current_app.conf.CELERY_ALWAYS_EAGER], when the attribute is set *)
  CELERY_ALWAYS_EAGER : option bool;
  (** the log of calls *)
  trace : list event
}.

Definition set_thread_data (f : gmap tid (gmap string loc) → gmap tid (gmap string loc))
    (st : state) : state :=
  State (f (thread_data st)) (heap st) (next_loc st) (in_atomic_block st)
        (CELERY_ALWAYS_EAGER st) (trace st).

Definition set_heap (f : gmap loc (list invocation) → gmap loc (list invocation))
    (st : state) : state :=
  State (thread_data st) (f (heap st)) (next_loc st) (in_atomic_block st)
        (CELERY_ALWAYS_EAGER st) (trace st).

Definition set_next_loc (l : loc) (st : state) : state :=
  State (thread_data st) (heap st) l (in_atomic_block st)
        (CELERY_ALWAYS_EAGER st) (trace st).

Definition set_in_atomic_block (f : gset tid → gset tid) (st : state) : state :=
  State (thread_data st) (heap st) (next_loc st) (f (in_atomic_block st))
        (CELERY_ALWAYS_EAGER st) (trace st).

Definition log (e : event) (st : state) : state :=
  State (thread_data st) (heap st) (next_loc st) (in_atomic_block st)
        (CELERY_ALWAYS_EAGER st) (trace st ++ [e]).

(** A fresh interpreter: no thread has touched [_thread_data], no list
    exists, no connection is in an atomic block. *)
Definition init (eager : option bool) : state :=
  State ∅ ∅ 0 ∅ eager [].

(** ** The monad *)

Definition M (A : Type) : Type := state → outcome exn A * state.

Definition ret {A} (a : A) : M A := λ st, (Return a, st).

Definition bind {A B} (c : M A) (k : A → M B) : M B :=
  λ st, match c st with
        | (Return a, st') => k a st'
        | (Raise e, st') => (Raise e, st')
        | (OutOfFuel, st') => (OutOfFuel, st')
        end.

Definition get {A} (f : state → A) : M A := λ st, (Return (f st), st).

Definition modify (f : state → state) : M unit := λ st, (Return tt, f st).

Local Notation "x <- c ;; k" := (bind c (λ x, k))
  (at level 100, c at next level, right associativity).
Local Notation "c ;;; k" := (bind c (λ _, k))
  (at level 100, right associativity).

(** [while cond: body], unrolled at most [fuel] times. *)
Fixpoint while (fuel : nat) (cond : M bool) (body : M unit) : M unit :=
  match fuel with
  | 0 => λ st, (OutOfFuel, st)
  | S n => b <- cond ;; if b : bool then body ;;; while n cond body else ret tt
  end.

(** ** Python lists and dictionaries *)

(** The elements of the list object at [l]. *)
Definition list_contents (l : loc) (st : state) : list invocation :=
  default [] (heap st !! l).

(** The display [[]]: a new, empty list object. *)
Definition list_new : M loc :=
  λ st, let l := next_loc st in
        (Return l, set_next_loc (S l) (set_heap (insert l []) st)).

(** [q.append(i)], called by thread [t]. *)
Definition list_append (t : tid) (q : loc) (i : invocation) : M unit :=
  modify (λ st, log (Appended t i) (set_heap (alter (λ xs, xs ++ [i]) q) st)).

(** [q.pop(0)]: [IndexError] on an empty list. *)
Definition list_pop0 (t : tid) (q : loc) : M invocation :=
  λ st, match list_contents q st with
        | [] => (Raise IndexError, st)
        | i :: rest => (Return i, log (Popped t i) (set_heap (insert q rest) st))
        end.

(** [q[:] = []]: the same object, emptied. *)
Definition list_clear (t : tid) (q : loc) : M unit :=
  modify (λ st, log (Cleared t (list_contents q st)) (set_heap (alter (λ _, []) q) st)).

(** The truth value of a list: non-empty. *)
Definition list_bool (q : loc) : M bool :=
  get (λ st, match list_contents q st with [] => false | _ => true end).

(** [_thread_data.__dict__] as thread [t] sees it: empty until [t] stores
    something. *)
Definition local_dict (t : tid) (st : state) : gmap string loc :=
  default ∅ (thread_data st !! t).

(** [_thread_data.__dict__.setdefault(k, v)] in thread [t]. *)
Definition dict_setdefault (t : tid) (k : string) (v : loc) : M loc :=
  λ st, match local_dict t st !! k with
        | Some x => (Return x, st)
        | None => (Return v, set_thread_data (insert t (<[k := v]> (local_dict t st))) st)
        end.

(** ** The module *)

(** [_get_task_queue()]: the argument [[]] is evaluated first, then
    [setdefault] keeps the stored list or stores the new one. *)
Definition _get_task_queue (t : tid) : M loc :=
  l <- list_new ;; dict_setdefault t "task_queue" l.

(** [PostTransactionTask.original_apply_async]: the call to the transport. *)
Definition original_apply_async (t : tid) (self : task) (a : args) (kw : kwargs)
    : M result :=
  λ st, let st' := log (Sent t (self, a, kw)) st in
        match Task_apply_async self a kw with
        | inl r => (Return r, st')
        | inr e => (Raise (TransportError e), st')
        end.

(** [PostTransactionTask.apply_async]: [None] stands for Python's [None],
    returned when the function falls off its end. *)
Definition apply_async (t : tid) (self : task) (a : args) (kw : kwargs)
    : M (option result) :=
  in_atomic <- get (λ st, bool_decide (t ∈ in_atomic_block st)) ;;
  eager <- get (λ st, default false (CELERY_ALWAYS_EAGER st)) ;;
  if in_atomic && negb eager then
    q <- _get_task_queue t ;;
    list_append t q (self, a, kw) ;;;
    ret None
  else
    r <- original_apply_async t self a kw ;;
    ret (Some r).

(** [_discard_tasks], the post_rollback handler. *)
Definition _discard_tasks (t : tid) : M unit :=
  q <- _get_task_queue t ;;
  list_clear t q.

(** The body of the loop of [_send_tasks]: pop the head, then send it. *)
Definition send_tasks_body (t : tid) (queue : loc) : M unit :=
  i <- list_pop0 t queue ;;
  let '(tsk, a, kw) := i in
  original_apply_async t tsk a kw ;;;
  ret tt.

(** [_send_tasks], the post_commit handler.  Each turn of the loop pops one
    element, so one more turn than the list has elements is enough. *)
Definition _send_tasks (t : tid) : M unit :=
  queue <- _get_task_queue t ;;
  n <- get (λ st, length (list_contents queue st)) ;;
  while (S n) (list_bool queue) (send_tasks_body t queue).

(** ** Calls, schedules and what each thread observes *)

(** What can happen in a thread: a call into the module, one of the two
    signals the handlers are connected to, or the host (Django) entering or
    leaving an atomic block on the thread's connection. *)
Inductive call : Type :=
| Call_apply_async (self : task) (a : args) (kw : kwargs)
| Call_original_apply_async (self : task) (a : args) (kw : kwargs)
| Signal_post_commit                       (* runs _send_tasks *)
| Signal_post_rollback                     (* runs _discard_tasks *)
| Call_get_task_queue
| Host_set_in_atomic_block (b : bool).

(** The state after thread [t] makes call [c]; what the call returned or
    raised is dropped, so a schedule also covers callers that catch. *)
Definition exec (t : tid) (c : call) (st : state) : state :=
  match c with
  | Call_apply_async self a kw => (apply_async t self a kw st).2
  | Call_original_apply_async self a kw => (original_apply_async t self a kw st).2
  | Signal_post_commit => (_send_tasks t st).2
  | Signal_post_rollback => (_discard_tasks t st).2
  | Call_get_task_queue => (_get_task_queue t st).2
  | Host_set_in_atomic_block true => set_in_atomic_block (union {[t]}) st
  | Host_set_in_atomic_block false => set_in_atomic_block (λ s, s ∖ {[t]}) st
  end.

(** A schedule interleaves the calls of all threads. *)
Definition schedule : Type := list (tid * call).

Definition run (s : schedule) (st : state) : state :=
  foldl (λ st x, exec x.1 x.2 st) st s.

(** The calls of thread [t] in a schedule, in order. *)
Definition calls_of (t : tid) (s : schedule) : list call :=
  omap (λ x, if decide (x.1 = t) then Some x.2 else None) s.

(** Thread [t] submits the invocations of a list through [apply_async], one
    after the other. *)
Definition submissions (t : tid) (invs : list invocation) : schedule :=
  (λ i, (t, Call_apply_async i.1.1 i.1.2 i.2)) <$> invs.

(** The calls that hand a task to the module. *)
Definition submits (c : call) : Prop :=
  match c with
  | Call_apply_async _ _ _ | Call_original_apply_async _ _ _ => True
  | _ => False
  end.

(** Modelled from the spec: the module [transaction_signals], which sends
    [post_commit] and [post_rollback], is not among the sources.  As in the
    specification's state machine (Idle, Active, back to Idle on the
    notification), a thread enters the atomic block, submits, leaves the
    block, and then receives the one signal of the outcome. *)
Definition transaction (invs : list invocation) (signal : call) : list call :=
  Host_set_in_atomic_block true
    :: ((λ i, Call_apply_async i.1.1 i.1.2 i.2) <$> invs)
    ++ [Host_set_in_atomic_block false; signal].

(** The list registered for thread [t], if any, and its elements: a thread
    that has no list yet has an empty buffer. *)
Definition task_queue (t : tid) (st : state) : option loc :=
  local_dict t st !! "task_queue".

Definition buffer (t : tid) (st : state) : list invocation :=
  from_option (λ q, list_contents q st) [] (task_queue t st).

Definition eager (st : state) : bool := default false (CELERY_ALWAYS_EAGER st).

Definition ev_tid (e : event) : tid :=
  match e with Appended t _ | Popped t _ | Cleared t _ | Sent t _ => t end.

Definition events_of (t : tid) (tr : list event) : list event :=
  filter (λ e, ev_tid e = t) tr.

(** The invocations thread [t] handed to the transport, appended to its
    queue, popped from it, and dropped from it. *)
Definition sent_by (t : tid) (tr : list event) : list invocation :=
  tr ≫= λ e, match e with Sent t' i => if decide (t' = t) then [i] else [] | _ => [] end.

Definition appended_by (t : tid) (tr : list event) : list invocation :=
  tr ≫= λ e, match e with Appended t' i => if decide (t' = t) then [i] else [] | _ => [] end.

Definition popped_by (t : tid) (tr : list event) : list invocation :=
  tr ≫= λ e, match e with Popped t' i => if decide (t' = t) then [i] else [] | _ => [] end.

Definition discarded_by (t : tid) (tr : list event) : list invocation :=
  tr ≫= λ e, match e with Cleared t' q => if decide (t' = t) then q else [] | _ => [] end.

(** Everything that left the queue of [t], in the order it left. *)
Definition removed_by (t : tid) (tr : list event) : list invocation :=
  tr ≫= λ e, match e with
             | Popped t' i => if decide (t' = t) then [i] else []
             | Cleared t' q => if decide (t' = t) then q else []
             | _ => []
             end.

(** Every transport call, with the thread that made it. *)
Definition sent_log (tr : list event) : list (tid * invocation) :=
  tr ≫= λ e, match e with Sent t i => [(t, i)] | _ => [] end.

(** The transport calls of [t] that directly follow a pop by [t]: the
    dispatches that came out of the buffer. *)
Fixpoint dispatched_from_buffer (t : tid) (tr : list event) : list invocation :=
  match tr with
  | [] => []
  | e :: rest =>
      match e, rest with
      | Popped t1 _, Sent t2 i :: _ =>
          if decide (t1 = t ∧ t2 = t) then i :: dispatched_from_buffer t rest
          else dispatched_from_buffer t rest
      | _, _ => dispatched_from_buffer t rest
      end
  end.

(** A log in which every pop is directly followed by the transport call,
    by the same thread, on the element popped. *)
Inductive paired : list event → Prop :=
| paired_nil : paired []
| paired_pop t i tr : paired tr → paired (Popped t i :: Sent t i :: tr)
| paired_appended t i tr : paired tr → paired (Appended t i :: tr)
| paired_cleared t q tr : paired tr → paired (Cleared t q :: tr)
| paired_sent t i tr : paired tr → paired (Sent t i :: tr).

(** The transport accepts [i]: called on it, it returns and does not raise. *)
Definition accepts (i : invocation) : Prop :=
  is_Some (match Task_apply_async i.1.1 i.1.2 i.2 with inl r => Some r | inr _ => None end).

(** ** Well-formed states

    Locations from [next_loc] on are unused, every registered queue is an
    allocated list, and no two threads have the same list registered. *)
Record wf (st : state) : Prop := Wf {
  wf_fresh : ∀ l, next_loc st ≤ l → heap st !! l = None;
  wf_alloc : ∀ t q, task_queue t st = Some q → is_Some (heap st !! q);
  wf_sep : ∀ t1 t2 q, task_queue t1 st = Some q → task_queue t2 st = Some q → t1 = t2
}.

(** What a step that only touches the heap, the registry or the log
    leaves alone. *)
Definition same_env (st st' : state) : Prop :=
  in_atomic_block st' = in_atomic_block st ∧
  CELERY_ALWAYS_EAGER st' = CELERY_ALWAYS_EAGER st.

(** ** An abstract machine per thread

    The same calls on a plain list and a flag, with no heap and no other
    thread; the refinement lemmas below show that each thread of the model
    above behaves like it. *)
Record ctx : Type := Ctx {
  c_buffer : list invocation;
  c_atomic : bool;
  c_events : list event
}.

Definition view (t : tid) (st : state) : ctx :=
  Ctx (buffer t st) (bool_decide (t ∈ in_atomic_block st)) (events_of t (trace st)).

(** The events of a drain of [buf] and what it leaves in the buffer: it
    stops after the first transport call that raises. *)
Fixpoint abs_drain (t : tid) (buf : list invocation) : list event * list invocation :=
  match buf with
  | [] => ([], [])
  | i :: rest =>
      match Task_apply_async i.1.1 i.1.2 i.2 with
      | inl _ => let r := abs_drain t rest in (Popped t i :: Sent t i :: r.1, r.2)
      | inr _ => ([Popped t i; Sent t i], rest)
      end
  end.

(** How the drain of [buf] ends: normally, or with the exception of the
    first transport call that raises. *)
Fixpoint abs_drain_outcome (buf : list invocation) : outcome exn unit :=
  match buf with
  | [] => Return tt
  | i :: rest =>
      match Task_apply_async i.1.1 i.1.2 i.2 with
      | inl _ => abs_drain_outcome rest
      | inr e => Raise (TransportError e)
      end
  end.

(** The events of a call and the buffer it leaves. *)
Definition abs_effect (t : tid) (eag atomic : bool) (buf : list invocation) (c : call)
    : list event * list invocation :=
  match c with
  | Call_apply_async self a kw =>
      if atomic && negb eag
      then ([Appended t (self, a, kw)], buf ++ [(self, a, kw)])
      else ([Sent t (self, a, kw)], buf)
  | Call_original_apply_async self a kw => ([Sent t (self, a, kw)], buf)
  | Signal_post_commit => abs_drain t buf
  | Signal_post_rollback => ([Cleared t buf], [])
  | Call_get_task_queue => ([], buf)
  | Host_set_in_atomic_block _ => ([], buf)
  end.

Definition abs_step (t : tid) (eag : bool) (x : ctx) (c : call) : ctx :=
  let r := abs_effect t eag (c_atomic x) (c_buffer x) c in
  Ctx r.2
      (match c with Host_set_in_atomic_block b => b | _ => c_atomic x end)
      (c_events x ++ r.1).

(** [st'] comes from [st] by a step of thread [t] that logged [evs] and
    left [buf'] in the buffer of [t]: the buffers of the other threads, the
    lists already registered and the configuration are as before. *)
Definition thread_step (t : tid) (st st' : state) (evs : list event)
    (buf' : list invocation) : Prop :=
  wf st' ∧
  buffer t st' = buf' ∧
  trace st' = trace st ++ evs ∧
  (∀ t', t' ≠ t → buffer t' st' = buffer t' st) ∧
  (∀ t' q, task_queue t' st = Some q → task_queue t' st' = Some q) ∧
  same_env st st'.

(** ** Threads that interleave inside a call

    A call is not one step: another thread may run between any two
    operations of it.  A frame says where the call a thread is making has
    got to; its local variable [queue] holds the list [q]. *)
Inductive frame : Type :=
| Idle                                    (* between calls *)
| At_append (q : loc) (i : invocation)    (* apply_async: queue.append(i) is next *)
| At_clear (q : loc)                      (* _discard_tasks: queue[:] = [] is next *)
| At_while (q : loc)                      (* _send_tasks: the test of the loop is next *)
| At_pop (q : loc)                        (* _send_tasks: queue.pop(0) is next *)
| At_send (q : loc) (i : invocation).     (* _send_tasks: the transport call on i is next *)

(** The first operation of a call.  The test in [apply_async] is taken
    together with the operation after it: it reads the flag of the thread's
    own connection and the configuration, which no other thread writes. *)
Definition call_begin (t : tid) (c : call) (st : state) : frame * state :=
  match c with
  | Call_apply_async self a kw =>
      if bool_decide (t ∈ in_atomic_block st) && negb (eager st)
      then match _get_task_queue t st with
           | (Return q, st') => (At_append q (self, a, kw), st')
           | (_, st') => (Idle, st')
           end
      else (Idle, (original_apply_async t self a kw st).2)
  | Call_original_apply_async self a kw =>
      (Idle, (original_apply_async t self a kw st).2)
  | Signal_post_commit =>
      match _get_task_queue t st with
      | (Return q, st') => (At_while q, st')
      | (_, st') => (Idle, st')
      end
  | Signal_post_rollback =>
      match _get_task_queue t st with
      | (Return q, st') => (At_clear q, st')
      | (_, st') => (Idle, st')
      end
  | Call_get_task_queue => (Idle, (_get_task_queue t st).2)
  | Host_set_in_atomic_block b => (Idle, exec t (Host_set_in_atomic_block b) st)
  end.

(** The next operation of a call that has begun.  An exception ends the
    call. *)
Definition call_resume (t : tid) (f : frame) (st : state) : frame * state :=
  match f with
  | Idle => (Idle, st)
  | At_append q i => (Idle, (list_append t q i st).2)
  | At_clear q => (Idle, (list_clear t q st).2)
  | At_while q =>
      match list_bool q st with
      | (Return true, st') => (At_pop q, st')
      | (_, st') => (Idle, st')
      end
  | At_pop q =>
      match list_pop0 t q st with
      | (Return i, st') => (At_send q i, st')
      | (_, st') => (Idle, st')
      end
  | At_send q i =>
      match original_apply_async t i.1.1 i.1.2 i.2 st with
      | (Return _, st') => (At_while q, st')
      | (_, st') => (Idle, st')
      end
  end.

(** A thread: where its current call is, and the calls it will make next. *)
Record thread : Type := Thread {
  th_frame : frame;
  th_todo : list call
}.

Record pool : Type := Pool {
  p_state : state;
  p_threads : gmap tid thread
}.

(** Thread [t] is scheduled for one operation. *)
Definition fine_step (t : tid) (σ : pool) : pool :=
  match p_threads σ !! t with
  | None => σ
  | Some (Thread Idle []) => σ
  | Some (Thread Idle (c :: cs)) =>
      let r := call_begin t c (p_state σ) in
      Pool r.2 (<[t := Thread r.1 cs]> (p_threads σ))
  | Some (Thread f cs) =>
      let r := call_resume t f (p_state σ) in
      Pool r.2 (<[t := Thread r.1 cs]> (p_threads σ))
  end.

(** The scheduler picks a thread for each step. *)
Definition fine_run (sch : list tid) (σ : pool) : pool :=
  foldl (λ σ t, fine_step t σ) σ sch.

(** Threads about to run the given calls. *)
Definition spawn (progs : gmap tid (list call)) (st : state) : pool :=
  Pool st (Thread Idle <$> progs).

(** Thread [t] has made all its calls. *)
Definition finished (t : tid) (σ : pool) : Prop :=
  p_threads σ !! t = Some (Thread Idle []).

Definition frame_queue (f : frame) : option loc :=
  match f with
  | Idle => None
  | At_append q _ | At_clear q | At_while q | At_pop q | At_send q _ => Some q
  end.

(** The state is well formed and the list a call holds is the one registered
    for its thread. *)
Definition pool_ok (σ : pool) : Prop :=
  wf (p_state σ) ∧
  ∀ t th q, p_threads σ !! t = Some th →
            frame_queue (th_frame th) = Some q →
            task_queue t (p_state σ) = Some q.

(** What the abstract machine of [t] will be when the call that is at frame
    [f] has run to its end. *)
Definition pending (t : tid) (f : frame) (x : ctx) : ctx :=
  match f with
  | Idle => x
  | At_append _ i => Ctx (c_buffer x ++ [i]) (c_atomic x) (c_events x ++ [Appended t i])
  | At_clear _ => Ctx [] (c_atomic x) (c_events x ++ [Cleared t (c_buffer x)])
  | At_while _ | At_pop _ =>
      let r := abs_drain t (c_buffer x) in
      Ctx r.2 (c_atomic x) (c_events x ++ r.1)
  | At_send _ i =>
      match Task_apply_async i.1.1 i.1.2 i.2 with
      | inl _ =>
          let r := abs_drain t (c_buffer x) in
          Ctx r.2 (c_atomic x) (c_events x ++ Sent t i :: r.1)
      | inr _ => Ctx (c_buffer x) (c_atomic x) (c_events x ++ [Sent t i])
      end
  end.

(** One operation of thread [t] took [st] to the frame and state [r]: the
    state is still well formed, registered lists stay registered, the frame
    holds the list of [t], the call will end in [x], and the other threads
    and the configuration saw nothing. *)
Definition micro_ok (t : tid) (st : state) (r : frame * state) (x : ctx) : Prop :=
  wf r.2 ∧
  (∀ t' q, task_queue t' st = Some q → task_queue t' r.2 = Some q) ∧
  (∀ q, frame_queue r.1 = Some q → task_queue t r.2 = Some q) ∧
  pending t r.1 (view t r.2) = x ∧
  (∀ t', t' ≠ t → view t' r.2 = view t' st) ∧
  eager r.2 = eager st.

(** What the abstract machine of [t] will be when [t] has made all its
    calls. *)
Definition destiny (t : tid) (σ : pool) : ctx :=
  match p_threads σ !! t with
  | None => view t (p_state σ)
  | Some th =>
      foldl (abs_step t (eager (p_state σ)))
            (pending t (th_frame th) (view t (p_state σ))) (th_todo th)
  end.

(** ** The test settings

    [tests/settings.py] switches eager mode on, in the settings and on
    [current_app.conf]. *)
Definition settings_CELERY_ALWAYS_EAGER : bool := true.

(** A fresh interpreter configured by [tests/settings.py]. *)
Definition test_interpreter : state := init (Some settings_CELERY_ALWAYS_EAGER).

(** The invocations a list of calls submits, through either entry point. *)
Definition submitted (cs : list call) : list invocation :=
  cs ≫= λ c, match c with
             | Call_apply_async self a kw
             | Call_original_apply_async self a kw => [(self, a, kw)]
             | _ => []
             end.

(** ** Several transactions, and both entry points *)

(** The signal of an outcome. *)
Definition settle (committed : bool) : call :=
  if committed then Signal_post_commit else Signal_post_rollback.

(** One transaction after the other on the same thread; each comes with its
    tasks and with whether it commits. *)
Definition transactions (txs : list (list invocation * bool)) : list call :=
  txs ≫= λ tx : list invocation * bool, transaction tx.1 (settle tx.2).

Definition committed_tasks (txs : list (list invocation * bool)) : list invocation :=
  txs ≫= λ tx : list invocation * bool, if tx.2 then tx.1 else [].

Definition rolled_back_tasks (txs : list (list invocation * bool)) : list invocation :=
  txs ≫= λ tx : list invocation * bool, if tx.2 then [] else tx.1.

(** A submission through [original_apply_async] (flag [true]) or through
    [apply_async] (flag [false]). *)
Definition submission_call (sub : bool * invocation) : call :=
  if sub.1 then Call_original_apply_async sub.2.1.1 sub.2.1.2 sub.2.2
  else Call_apply_async sub.2.1.1 sub.2.1.2 sub.2.2.

Definition sent_directly (subs : list (bool * invocation)) : list invocation :=
  subs ≫= λ sub : bool * invocation, if sub.1 then [sub.2] else [].

Definition sent_through_buffer (subs : list (bool * invocation)) : list invocation :=
  subs ≫= λ sub : bool * invocation, if sub.1 then [] else [sub.2].

(** Whenever a thread is about to pop, its list is not empty. *)
Definition pop_ready (σ : pool) : Prop :=
  ∀ t th q, p_threads σ !! t = Some th →
            th_frame th = At_pop q →
            buffer t (p_state σ) ≠ [].

End Model.

(** ** A concrete transport, for the examples

    Tasks are named by strings; the broker refuses the task called
    ["unroutable"] and returns the number of positional arguments for every
    other one. *)
Definition demo_invocation : Type := string * list nat * list (string * nat).

#[global] Instance demo_transport :
    Transport string (list nat) (list (string * nat)) nat string :=
  λ self a kw,
    if decide (self = "unroutable") then inr "no route" else inl (length a).

Definition demo_state : Type := @state string (list nat) (list (string * nat)).

Definition T1 : demo_invocation := ("T1", [1], []).
Definition T2 : demo_invocation := ("T2", [2], []).
Definition T3 : demo_invocation := ("T3", [3], []).
Definition Bad : demo_invocation := ("unroutable", [], []).

Definition submit (i : demo_invocation) : @call string (list nat) (list (string * nat)) :=
  Call_apply_async i.1.1 i.1.2 i.2.

(** Thread 0 has entered an atomic block; eager mode is not configured. *)
Definition demo_open : demo_state :=
  run [(0, Host_set_in_atomic_block true)] (init None).

(** Two transactions side by side, with a third thread sending directly:
    thread 0 submits [T1], [T2] and commits, thread 1 submits [T3], [Bad] and
    rolls back. *)
Definition demo_schedule : @schedule string (list nat) (list (string * nat)) :=
  [ (0, Host_set_in_atomic_block true); (1, Host_set_in_atomic_block true);
    (1, submit T3); (0, submit T1); (2, submit T3); (1, submit Bad);
    (1, Host_set_in_atomic_block false); (0, submit T2);
    (1, Signal_post_rollback); (2, Signal_post_commit);
    (0, Host_set_in_atomic_block false); (0, Signal_post_commit) ].

(** Three threads: thread 0 commits a transaction with [T1] and [T2], thread
    1 rolls back one with [T3] and [Bad], thread 2 submits [T3] outside any
    transaction. *)
Definition demo_programs : gmap tid (list (@call string (list nat) (list (string * nat)))) :=
  <[0 := transaction [T1; T2] Signal_post_commit]>
    (<[1 := transaction [T3; Bad] Signal_post_rollback]>
       (<[2 := [submit T3]]> ∅)).

(** The same, but the first task thread 0 submits is one the broker refuses. *)
Definition demo_programs_refused
    : gmap tid (list (@call string (list nat) (list (string * nat)))) :=
  <[0 := transaction [Bad; T1] Signal_post_commit]>
    (<[1 := transaction [T3; T2] Signal_post_rollback]> ∅).

(** A scheduler that switches threads in the middle of calls. *)
Definition demo_scheduler : list tid :=
  [0; 1; 1; 0; 2; 0; 1; 0; 0; 1; 2; 1; 0; 1; 0; 0; 1; 1; 0; 0; 1; 0; 0; 2; 0; 0; 1; 0; 0].

(** A scheduler that stops while thread 0 is between the test of the loop
    of [_send_tasks] and the pop. *)
Definition demo_scheduler_mid : list tid := [0; 1; 0; 0; 1; 0; 0; 1; 0; 0; 1; 0].

(** Three transactions of one thread: committed, rolled back, committed. *)
Definition demo_transactions : list (list demo_invocation * bool) :=
  [([T1; T2], true); ([T3; Bad], false); ([T3], true)].

Definition demo_programs_seq
    : gmap tid (list (@call string (list nat) (list (string * nat)))) :=
  <[0 := transactions demo_transactions]>
    (<[1 := transaction [T2] Signal_post_commit]> ∅).

Definition demo_scheduler_long : list tid := mjoin (replicate 35 [0; 1; 0]).

(** Submissions through both entry points: [true] is
    [original_apply_async]. *)
Definition demo_submissions : list (bool * demo_invocation) :=
  [(false, T1); (true, T2); (false, T3); (true, T1)].

Definition demo_schedule_mixed : @schedule string (list nat) (list (string * nat)) :=
  [ (0, submission_call (false, T1)); (1, submit T3);
    (0, submission_call (true, T2)); (0, submission_call (false, T3));
    (1, Signal_post_rollback); (0, submission_call (true, T1));
    (0, Signal_post_commit) ].

(** The schedule [demo_schedule] up to, and without, the commit signal of
    thread 0: thread 1 has rolled back, thread 0 has left its atomic block
    with [T1] and [T2] buffered. *)
Definition demo_schedule_resolving : @schedule string (list nat) (list (string * nat)) :=
  take 11 demo_schedule.

(** One thread, one whole transaction that commits: [Bad], which the
    transport refuses, is submitted before [T1]. *)
Definition demo_schedule_refused : @schedule string (list nat) (list (string * nat)) :=
  (λ c, (0, c)) <$> transaction [Bad; T1] Signal_post_commit.

(** * Properties *)

Section Properties.
Context {task args kwargs result exn : Type}.
Context `{!Transport task args kwargs result exn}.

Local Abbreviation state := (@state task args kwargs).
Local Abbreviation invocation := (@invocation task args kwargs).
Local Abbreviation event := (@event task args kwargs).
Local Abbreviation call := (@call task args kwargs).
Local Abbreviation schedule := (@schedule task args kwargs).
Local Abbreviation _get_task_queue := (@_get_task_queue task args kwargs exn).
Local Abbreviation _discard_tasks := (@_discard_tasks task args kwargs exn).
Local Abbreviation list_pop0 := (@list_pop0 task args kwargs exn).

Implicit Types (st : state) (t : tid) (q : loc) (i : invocation)
  (tr evs : list event) (buf pre post invs : list invocation)
  (c : call) (s : schedule).

(** ** The initial state is well formed *)

Lemma wf_init (eag : option bool) : wf (init eag : state).
Proof.
  split.
  - intros l _. apply lookup_empty.
  - intros t q. unfold task_queue, local_dict. simpl.
    rewrite lookup_empty. simpl. rewrite lookup_empty. discriminate.
  - intros t1 t2 q. unfold task_queue, local_dict. simpl.
    rewrite lookup_empty. simpl. rewrite lookup_empty. discriminate.
Qed.

(** ** [_get_task_queue] *)

Lemma same_env_refl st : same_env st st.
Proof. by split. Qed.

Lemma same_env_trans st1 st2 st3 :
  same_env st1 st2 → same_env st2 st3 → same_env st1 st3.
Proof. intros [? ?] [? ?]. split; congruence. Qed.

Lemma get_task_queue_total t st :
  ∃ q st', _get_task_queue t st = (Return q, st').
Proof.
  unfold _get_task_queue, bind, list_new, dict_setdefault. simpl.
  destruct (local_dict t _ !! "task_queue"); eauto.
Qed.

Lemma get_task_queue_spec t st :
  wf st →
  ∃ q st',
    _get_task_queue t st = (Return q, st') ∧
    wf st' ∧
    task_queue t st' = Some q ∧
    (∀ q0, task_queue t st = Some q0 → q = q0) ∧
    (task_queue t st = None → q = next_loc st ∧ heap st' !! q = Some []) ∧
    (∀ t', t' ≠ t → task_queue t' st' = task_queue t' st) ∧
    (∀ t', buffer t' st' = buffer t' st) ∧
    trace st' = trace st ∧
    same_env st st'.
Proof.
  intros [Hfresh Halloc Hsep].
  assert (Hn : heap st !! next_loc st = None) by (apply Hfresh; lia).
  assert (Hne : ∀ t' q', task_queue t' st = Some q' → q' ≠ next_loc st).
  { intros t' q' Hq' ->. apply Halloc in Hq'. rewrite Hn in Hq'.
    by destruct Hq'. }
  unfold _get_task_queue, bind, list_new, dict_setdefault. simpl.
  change (local_dict t (set_next_loc _ _)) with (local_dict t st).
  destruct (local_dict t st !! "task_queue") as [q0|] eqn:Hq.
  - eexists q0, _. split; [reflexivity|].
    split; [|split; [exact Hq|split; [|split; [|split; [|split]]]]].
    + split; simpl.
      * intros l Hl. rewrite lookup_insert_ne by lia. apply Hfresh. lia.
      * intros t' q' Hq'. change (task_queue t' st = Some q') in Hq'.
        rewrite lookup_insert_ne by (symmetry; eauto). eauto.
      * exact Hsep.
    + intros q1 Hq1. unfold task_queue in Hq1. congruence.
    + intros Hq1. unfold task_queue in Hq1. congruence.
    + done.
    + intros t'. unfold buffer.
      change (task_queue t' (set_next_loc _ _)) with (task_queue t' st).
      destruct (task_queue t' st) as [q'|] eqn:Hq'; simpl; [|done].
      unfold list_contents. simpl.
      rewrite lookup_insert_ne by (symmetry; eauto). done.
    + done.
  - assert (Hreg : ∀ t', task_queue t'
        (set_thread_data (insert t (<["task_queue":=next_loc st]> (local_dict t st)))
           (set_next_loc (S (next_loc st)) (set_heap (insert (next_loc st) []) st)))
        = if decide (t' = t) then Some (next_loc st) else task_queue t' st).
    { intros t'. unfold task_queue at 1, local_dict at 1. simpl.
      destruct (decide (t' = t)) as [->|Hne'].
      - rewrite lookup_insert_eq. simpl. apply lookup_insert_eq.
      - rewrite lookup_insert_ne by done. done. }
    eexists (next_loc st), _. split; [reflexivity|].
    split; [|split; [|split; [|split; [|split; [|split]]]]].
    + split.
      * simpl. intros l Hl. rewrite lookup_insert_ne by lia. apply Hfresh. lia.
      * intros t' q'. rewrite Hreg. simpl. destruct (decide (t' = t)).
        -- intros [= <-]. rewrite lookup_insert_eq. eauto.
        -- intros Hq'. rewrite lookup_insert_ne by (symmetry; eauto). eauto.
      * intros t1 t2 q'. rewrite !Hreg.
        destruct (decide (t1 = t)), (decide (t2 = t)); subst; try done.
        -- intros [= <-] Hq'. by apply Hne in Hq'.
        -- intros Hq' [= <-]. by apply Hne in Hq'.
        -- apply Hsep.
    + rewrite Hreg. by rewrite decide_True.
    + intros q0 Hq0. unfold task_queue in Hq0. congruence.
    + intros _. split; [done|]. simpl. apply lookup_insert_eq.
    + intros t' Hne'. rewrite Hreg. by rewrite decide_False.
    + intros t'. unfold buffer. rewrite Hreg.
      destruct (decide (t' = t)) as [->|Hne'].
      * unfold task_queue. rewrite Hq. simpl. unfold list_contents. simpl.
        by rewrite lookup_insert_eq.
      * destruct (task_queue t' st) as [q'|] eqn:Hq'; simpl; [|done].
        unfold list_contents. simpl.
        rewrite lookup_insert_ne by (symmetry; eauto). done.
    + done.
Qed.

(** ** Steps of one thread *)

Lemma thread_step_trans t st st1 st2 evs1 evs2 buf1 buf2 :
  thread_step t st st1 evs1 buf1 →
  thread_step t st1 st2 evs2 buf2 →
  thread_step t st st2 (evs1 ++ evs2) buf2.
Proof.
  intros (_ & _ & Htr1 & Hoth1 & Hreg1 & Henv1) (Hwf & Hbuf & Htr2 & Hoth2 & Hreg2 & Henv2).
  split; [done|]. split; [done|]. split.
  { by rewrite Htr2, Htr1, (assoc_L (++)). }
  split. { intros t' Hne. by rewrite Hoth2, Hoth1. }
  split. { eauto. }
  by eapply same_env_trans.
Qed.

Lemma get_task_queue_step t st :
  wf st →
  ∃ q st',
    _get_task_queue t st = (Return q, st') ∧
    task_queue t st' = Some q ∧
    thread_step t st st' [] (buffer t st).
Proof.
  intros Hwf.
  destruct (get_task_queue_spec t st Hwf)
    as (q & st' & Heq & Hwf' & Hq & Hold & _ & Hoth & Hbuf & Htr & Henv).
  exists q, st'. split; [done|]. split; [done|].
  split; [done|]. split; [done|]. split; [by rewrite Htr, app_nil_r|].
  split; [by intros; apply Hbuf|]. split; [|done].
  intros t' q' Hq'. destruct (decide (t' = t)) as [->|Hne].
  - by rewrite Hq, (Hold _ Hq').
  - by rewrite Hoth.
Qed.

(** Replacing the elements of the list registered for [t], and logging it. *)
Lemma update_queue_step t q (g : gmap loc (list invocation) → gmap loc (list invocation))
    xs e st :
  wf st →
  task_queue t st = Some q →
  g (heap st) !! q = Some xs →
  (∀ l, l ≠ q → g (heap st) !! l = heap st !! l) →
  thread_step t st (log e (set_heap g st)) [e] xs.
Proof.
  intros [Hfresh Halloc Hsep] Hq Hgq Hg.
  assert (Hreg : ∀ t', task_queue t' (log e (set_heap g st)) = task_queue t' st) by done.
  split; [|split; [|split; [|split; [|split]]]].
  - split.
    + simpl. intros l Hl. rewrite Hg; [by apply Hfresh|].
      intros ->. apply Halloc in Hq. rewrite Hfresh in Hq by done. by destruct Hq.
    + intros t' q'. rewrite Hreg. simpl. intros Hq'.
      destruct (decide (q' = q)) as [->|Hne]; [by rewrite Hgq|].
      rewrite Hg by done. eauto.
    + intros t1 t2 q'. rewrite !Hreg. apply Hsep.
  - unfold buffer. rewrite Hreg, Hq. simpl. unfold list_contents. simpl.
    by rewrite Hgq.
  - done.
  - intros t' Hne. unfold buffer. rewrite Hreg.
    destruct (task_queue t' st) as [q'|] eqn:Hq'; simpl; [|done].
    unfold list_contents. simpl. rewrite Hg; [done|].
    intros ->. apply Hne. by eapply Hsep.
  - intros t' q'. by rewrite Hreg.
  - done.
Qed.

Lemma log_step t e st :
  wf st → thread_step t st (log e st) [e] (buffer t st).
Proof.
  intros [Hfresh Halloc Hsep]. split; [by split|]. by repeat split.
Qed.

Lemma thread_step_refl t st : wf st → thread_step t st st [] (buffer t st).
Proof.
  intros Hwf. split; [done|]. split; [done|]. split; [by rewrite app_nil_r|].
  by repeat split.
Qed.

Lemma buffer_registered t q st :
  task_queue t st = Some q → buffer t st = list_contents q st.
Proof. intros Hq. unfold buffer. by rewrite Hq. Qed.

Lemma heap_registered t q st :
  wf st → task_queue t st = Some q → heap st !! q = Some (buffer t st).
Proof.
  intros Hwf Hq. rewrite (buffer_registered _ _ _ Hq). unfold list_contents.
  destruct (wf_alloc _ Hwf _ _ Hq) as [xs ->]. done.
Qed.

(** ** [original_apply_async] *)

Lemma original_apply_async_eq t self a kw st :
  original_apply_async t self a kw st =
    (match Task_apply_async self a kw with
     | inl r => Return r
     | inr e => Raise (TransportError e)
     end, log (Sent t (self, a, kw)) st).
Proof. unfold original_apply_async. simpl. by destruct (Task_apply_async _ _ _). Qed.

(** ** [apply_async] *)

Lemma apply_async_immediate t self a kw st :
  t ∉ in_atomic_block st ∨ eager st = true →
  apply_async t self a kw st =
    (match Task_apply_async self a kw with
     | inl r => Return (Some r)
     | inr e => Raise (TransportError e)
     end, log (Sent t (self, a, kw)) st).
Proof.
  intros Hnow. unfold apply_async, bind, get. simpl.
  assert (bool_decide (t ∈ in_atomic_block st) &&
          negb (default false (CELERY_ALWAYS_EAGER st)) = false) as ->.
  { destruct Hnow as [Hout|Heag].
    - by rewrite bool_decide_eq_false_2.
    - unfold eager in Heag. rewrite Heag. apply andb_false_r. }
  rewrite original_apply_async_eq. by destruct (Task_apply_async _ _ _).
Qed.

Lemma apply_async_deferred t self a kw st :
  wf st → t ∈ in_atomic_block st → eager st = false →
  ∃ st', apply_async t self a kw st = (Return None, st') ∧
         thread_step t st st' [Appended t (self, a, kw)] (buffer t st ++ [(self, a, kw)]).
Proof.
  intros Hwf Hin Heag. unfold apply_async, bind, get. simpl.
  assert (bool_decide (t ∈ in_atomic_block st) &&
          negb (default false (CELERY_ALWAYS_EAGER st)) = true) as ->.
  { rewrite bool_decide_eq_true_2 by done. unfold eager in Heag. by rewrite Heag. }
  destruct (get_task_queue_step t st Hwf) as (q & st1 & Heq & Hq & Hstep1).
  rewrite Heq. unfold list_append, modify, ret. simpl.
  eexists. split; [reflexivity|].
  pose proof Hstep1 as (Hwf1 & Hbuf1 & _).
  rewrite <- Hbuf1.
  eapply (thread_step_trans _ _ _ _ []); [exact Hstep1|].
  apply (update_queue_step t q); [done|done| |].
  - by rewrite lookup_alter_eq, (heap_registered t q st1).
  - intros l Hl. by rewrite lookup_alter_ne.
Qed.

(** ** [_discard_tasks] *)

Lemma discard_tasks_spec t st :
  wf st →
  ∃ st', _discard_tasks t st = (Return tt, st') ∧
         thread_step t st st' [Cleared t (buffer t st)] [].
Proof.
  intros Hwf. unfold _discard_tasks, bind.
  destruct (get_task_queue_step t st Hwf) as (q & st1 & Heq & Hq & Hstep1).
  rewrite Heq. unfold list_clear, modify. simpl.
  eexists. split; [reflexivity|].
  eapply (thread_step_trans _ _ _ _ []); [exact Hstep1|].
  rewrite <- (buffer_registered t q st1 Hq).
  pose proof Hstep1 as (Hwf1 & Hbuf1 & _).
  rewrite <- Hbuf1.
  apply (update_queue_step t q); [done|done| |].
  - by rewrite lookup_alter_eq, (heap_registered t q st1).
  - intros l Hl. by rewrite lookup_alter_ne.
Qed.

(** ** [_send_tasks] *)

(** The loop, run with more fuel than the buffer has elements, never runs
    out of fuel and does what [abs_drain] says. *)
Lemma while_drain t q buf :
  ∀ fuel st,
    wf st → task_queue t st = Some q → buffer t st = buf → length buf < fuel →
    ∃ st', while fuel (list_bool q) (send_tasks_body t q) st
             = (abs_drain_outcome buf, st') ∧
           thread_step t st st' (abs_drain t buf).1 (abs_drain t buf).2.
Proof.
  induction buf as [|i rest IH]; intros fuel st Hwf Hq Hbuf Hfuel.
  - destruct fuel as [|n]; [simpl in Hfuel; lia|].
    pose proof (buffer_registered t q st Hq) as Hc. rewrite Hbuf in Hc.
    simpl. unfold bind, list_bool, get. rewrite <- Hc. simpl.
    eexists. split; [reflexivity|]. rewrite <- Hbuf. by apply thread_step_refl.
  - destruct fuel as [|n]; [simpl in Hfuel; lia|].
    pose proof (buffer_registered t q st Hq) as Hc. rewrite Hbuf in Hc.
    assert (Hpop : thread_step t st (log (Popped t i) (set_heap (insert q rest) st))
                     [Popped t i] rest).
    { apply (update_queue_step t q); [done|done|apply lookup_insert_eq|].
      intros l Hl. by rewrite lookup_insert_ne. }
    set (st1 := log (Popped t i) (set_heap (insert q rest) st)) in *.
    pose proof Hpop as (Hwf1 & Hbuf1 & _).
    pose proof (log_step t (Sent t i) st1 Hwf1) as Hsend. rewrite Hbuf1 in Hsend.
    set (st2 := log (Sent t i) st1) in *.
    pose proof (thread_step_trans _ _ _ _ _ _ _ _ Hpop Hsend) as Hboth.
    assert (Hbody : send_tasks_body t q st =
              (match Task_apply_async i.1.1 i.1.2 i.2 with
               | inl _ => Return tt
               | inr e => Raise (TransportError e)
               end, st2)).
    { unfold send_tasks_body, bind, list_pop0. rewrite <- Hc.
      destruct i as [[tsk a] kw]. rewrite original_apply_async_eq. simpl.
      by destruct (Task_apply_async tsk a kw). }
    cbn [while]. unfold bind at 1. unfold list_bool, get. rewrite <- Hc.
    unfold bind at 1. rewrite Hbody. simpl.
    destruct (Task_apply_async i.1.1 i.1.2 i.2) as [r|e].
    + pose proof Hboth as (Hwf2 & Hbuf2 & _ & _ & Hreg2 & _).
      destruct (IH n st2) as (st' & Heq & Hstep);
        [done|by apply Hreg2|done|simpl in Hfuel; lia|].
      exists st'. split; [done|].
        apply (thread_step_trans _ _ _ _ _ _ _ _ Hboth Hstep).
    + exists st2. split; [done|]. exact Hboth.
Qed.

Lemma send_tasks_spec t st :
  wf st →
  ∃ st', _send_tasks t st = (abs_drain_outcome (buffer t st), st') ∧
         thread_step t st st' (abs_drain t (buffer t st)).1 (abs_drain t (buffer t st)).2.
Proof.
  intros Hwf. unfold _send_tasks, bind at 1.
  destruct (get_task_queue_step t st Hwf) as (q & st1 & Heq & Hq & Hstep1).
  rewrite Heq. unfold bind at 1, get.
  pose proof Hstep1 as (Hwf1 & Hbuf1 & _).
  rewrite <- (buffer_registered t q st1 Hq).
  destruct (while_drain t q (buffer t st1) (S (length (buffer t st1))) st1)
    as (st' & Hw & Hstep); [done|done|done|lia|].
  exists st'. rewrite <- Hbuf1. split; [done|].
  apply (thread_step_trans _ _ _ _ _ _ _ _ Hstep1 Hstep).
Qed.

(** [_send_tasks] never runs out of fuel and never pops from an empty
    list: it returns, or raises what the transport raised. *)
Lemma send_tasks_total t st :
  wf st →
  (∃ st', _send_tasks t st = (Return tt, st')) ∨
  (∃ e st', _send_tasks t st = (Raise (TransportError e), st')).
Proof.
  intros Hwf. destruct (send_tasks_spec t st Hwf) as (st' & Heq & _).
  rewrite Heq. clear Heq.
  induction (buffer t st) as [|i rest IH]; simpl; [by left; eexists|].
  destruct (Task_apply_async _ _ _) as [r|e]; [exact IH|by right; eexists _, _].
Qed.

(** Each single operation on a list, done by thread [t] on its own list,
    leaves the buffers of the other threads alone; so does looking up the
    list, and so does the transport call. *)
Lemma primitive_steps_isolated t t' st :
  wf st → t' ≠ t →
  buffer t' (_get_task_queue t st).2 = buffer t' st ∧
  (∀ self a kw, buffer t' (original_apply_async t self a kw st).2 = buffer t' st) ∧
  (∀ q i, task_queue t st = Some q →
          buffer t' (list_append (exn:=exn) t q i st).2 = buffer t' st ∧
          buffer t' (list_pop0 t q st).2 = buffer t' st ∧
          buffer t' (list_clear (exn:=exn) t q st).2 = buffer t' st).
Proof.
  intros Hwf Hne. split; [|split].
  - destruct (get_task_queue_step t st Hwf) as (q & st' & -> & _ & _ & _ & _ & Hoth & _).
    by apply Hoth.
  - intros self a kw. by rewrite original_apply_async_eq.
  - intros q i Hq. pose proof (heap_registered t q st Hwf Hq) as Hh.
    split; [|split].
    + apply (update_queue_step t q (alter (λ xs, xs ++ [i]) q) (buffer t st ++ [i])
               (Appended t i) st); [done|done| |intros l Hl; by rewrite lookup_alter_ne|done].
      by rewrite lookup_alter_eq, Hh.
    + unfold list_pop0. destruct (list_contents q st) as [|x rest]; [done|].
      apply (update_queue_step t q (insert q rest) rest (Popped t x) st);
        [done|done|apply lookup_insert_eq|intros l Hl; by rewrite lookup_insert_ne|done].
    + apply (update_queue_step t q (alter (λ _, []) q) [] (Cleared t (list_contents q st)) st);
        [done|done| |intros l Hl; by rewrite lookup_alter_ne|done].
      by rewrite lookup_alter_eq, Hh.
Qed.

(** ** One call of a schedule *)

Lemma exec_spec t c st :
  wf st →
  wf (exec t c st) ∧
  buffer t (exec t c st)
    = (abs_effect t (eager st) (bool_decide (t ∈ in_atomic_block st)) (buffer t st) c).2 ∧
  trace (exec t c st)
    = trace st ++
      (abs_effect t (eager st) (bool_decide (t ∈ in_atomic_block st)) (buffer t st) c).1 ∧
  (∀ t', t' ≠ t → buffer t' (exec t c st) = buffer t' st) ∧
  (∀ t' q, task_queue t' st = Some q → task_queue t' (exec t c st) = Some q) ∧
  CELERY_ALWAYS_EAGER (exec t c st) = CELERY_ALWAYS_EAGER st ∧
  in_atomic_block (exec t c st)
    = match c with
      | Host_set_in_atomic_block true => {[t]} ∪ in_atomic_block st
      | Host_set_in_atomic_block false => in_atomic_block st ∖ {[t]}
      | _ => in_atomic_block st
      end.
Proof.
  intros Hwf.
  assert (Hpack : ∀ st' evs buf',
    thread_step t st st' evs buf' →
    wf st' ∧ buffer t st' = buf' ∧ trace st' = trace st ++ evs ∧
    (∀ t', t' ≠ t → buffer t' st' = buffer t' st) ∧
    (∀ t' q, task_queue t' st = Some q → task_queue t' st' = Some q) ∧
    CELERY_ALWAYS_EAGER st' = CELERY_ALWAYS_EAGER st ∧
    in_atomic_block st' = in_atomic_block st).
  { intros st' evs buf' (? & ? & ? & ? & ? & ? & ?). done. }
  destruct c as [self a kw|self a kw| | | |b]; cbn [exec abs_effect].
  - destruct (decide (t ∈ in_atomic_block st)) as [Hin|Hout];
      [destruct (eager st) eqn:Heag|].
    + rewrite apply_async_immediate by auto. rewrite andb_false_r.
      exact (Hpack _ _ _ (log_step t _ st Hwf)).
    + destruct (apply_async_deferred t self a kw st) as (st' & -> & Hstep); [done..|].
      rewrite bool_decide_eq_true_2 by done. exact (Hpack _ _ _ Hstep).
    + rewrite apply_async_immediate by auto.
      rewrite bool_decide_eq_false_2 by done.
      exact (Hpack _ _ _ (log_step t _ st Hwf)).
  - rewrite original_apply_async_eq. exact (Hpack _ _ _ (log_step t _ st Hwf)).
  - destruct (send_tasks_spec t st Hwf) as (st' & -> & Hstep).
    exact (Hpack _ _ _ Hstep).
  - destruct (discard_tasks_spec t st Hwf) as (st' & Heq & Hstep).
    rewrite Heq. exact (Hpack _ _ _ Hstep).
  - destruct (get_task_queue_step t st Hwf) as (q & st' & Heq & _ & Hstep).
    rewrite Heq. exact (Hpack _ _ _ Hstep).
  - destruct Hwf as [Hfresh Halloc Hsep].
    destruct b; (split; [by split|]); simpl; rewrite app_nil_r; by repeat split.
Qed.

Lemma exec_wf t c st : wf st → wf (exec t c st).
Proof. intros Hwf. apply (exec_spec t c st Hwf). Qed.

Lemma exec_eager t c st : wf st → eager (exec t c st) = eager st.
Proof.
  intros Hwf. unfold eager.
  destruct (exec_spec t c st Hwf) as (_ & _ & _ & _ & _ & -> & _). done.
Qed.

Lemma abs_drain_tid t buf : Forall (λ e, ev_tid e = t) (abs_drain t buf).1.
Proof.
  induction buf as [|i rest IH]; simpl; [constructor|].
  destruct (Task_apply_async _ _ _); simpl; repeat constructor. done.
Qed.

Lemma abs_effect_tid t eag atomic buf c :
  Forall (λ e, ev_tid e = t) (abs_effect t eag atomic buf c).1.
Proof.
  destruct c; simpl; try (repeat constructor; done).
  - destruct (atomic && negb eag); repeat constructor.
  - apply abs_drain_tid.
Qed.

Lemma events_of_own t tr evs :
  Forall (λ e, ev_tid e = t) evs → events_of t (tr ++ evs) = events_of t tr ++ evs.
Proof.
  intros Hevs. unfold events_of. rewrite filter_app. f_equal.
  induction Hevs as [|e evs He _ IH]; [done|].
  rewrite filter_cons_True by done. by rewrite IH.
Qed.

Lemma events_of_other t t' tr evs :
  t' ≠ t → Forall (λ e, ev_tid e = t) evs → events_of t' (tr ++ evs) = events_of t' tr.
Proof.
  intros Hne Hevs. unfold events_of. rewrite filter_app.
  rewrite <- (app_nil_r (filter _ tr)) at 2. f_equal.
  induction Hevs as [|e evs He _ IH]; [done|].
  rewrite filter_cons_False by congruence. done.
Qed.

(** Each call is a step of the abstract machine of its thread, and is
    invisible to the abstract machines of the other threads. *)
Lemma exec_view t c st :
  wf st → view t (exec t c st) = abs_step t (eager st) (view t st) c.
Proof.
  intros Hwf.
  destruct (exec_spec t c st Hwf) as (_ & Hbuf & Htr & _ & _ & _ & Hat).
  unfold view, abs_step. simpl. rewrite Hbuf, Htr, Hat.
  rewrite events_of_own by apply abs_effect_tid. f_equal.
  destruct c as [| | | | |[]]; try done.
  - apply bool_decide_eq_true_2, elem_of_union. left. by apply elem_of_singleton.
  - apply bool_decide_eq_false_2. rewrite elem_of_difference, elem_of_singleton.
    by intros [_ []].
Qed.

Lemma exec_view_other t t' c st :
  wf st → t' ≠ t → view t' (exec t c st) = view t' st.
Proof.
  intros Hwf Hne.
  destruct (exec_spec t c st Hwf) as (_ & _ & Htr & Hoth & _ & _ & Hat).
  unfold view. rewrite Hoth, Htr, Hat by done.
  rewrite (events_of_other t) by (done || apply abs_effect_tid). f_equal.
  destruct c as [| | | | |[]]; try done; apply bool_decide_ext.
  - rewrite elem_of_union, elem_of_singleton. tauto.
  - rewrite elem_of_difference, elem_of_singleton. tauto.
Qed.

(** ** Schedules *)

Lemma run_cons t c s st : run ((t, c) :: s) st = run s (exec t c st).
Proof. done. Qed.

Lemma run_app s1 s2 st : run (s1 ++ s2) st = run s2 (run s1 st).
Proof. apply foldl_app. Qed.

Lemma run_wf s st : wf st → wf (run s st).
Proof.
  revert st. induction s as [|[t c] s IH]; intros st Hwf; [done|].
  apply IH, exec_wf, Hwf.
Qed.

Lemma run_eager s st : wf st → eager (run s st) = eager st.
Proof.
  revert st. induction s as [|[t c] s IH]; intros st Hwf; [done|].
  simpl. rewrite IH by apply exec_wf, Hwf. by apply exec_eager.
Qed.

(** A registered list stays registered, whatever any thread does. *)
Lemma run_task_queue t q s st :
  wf st → task_queue t st = Some q → task_queue t (run s st) = Some q.
Proof.
  revert st. induction s as [|[t' c] s IH]; intros st Hwf Hq; [done|].
  simpl. apply IH; [by apply exec_wf|].
  by apply (exec_spec t' c st Hwf).
Qed.

(** The log only grows. *)
Lemma run_trace s st : wf st → ∃ evs, trace (run s st) = trace st ++ evs.
Proof.
  revert st. induction s as [|[t c] s IH]; intros st Hwf.
  - exists []. by rewrite app_nil_r.
  - rewrite run_cons. destruct (IH (exec t c st)) as (evs & ->); [by apply exec_wf|].
    destruct (exec_spec t c st Hwf) as (_ & _ & -> & _).
    eexists. by rewrite <- app_assoc.
Qed.

(** Noninterference: what thread [t] sees after a schedule is what its own
    calls, taken alone and in order, do to its abstract machine. *)
Lemma run_view t s st :
  wf st →
  view t (run s st) = foldl (abs_step t (eager st)) (view t st) (calls_of t s).
Proof.
  revert st. induction s as [|[t' c] s IH]; intros st Hwf; [done|].
  simpl. rewrite IH by apply exec_wf, Hwf. rewrite exec_eager by done.
  unfold calls_of. simpl. destruct (decide (t' = t)) as [->|Hne]; simpl.
  - by rewrite exec_view.
  - by rewrite exec_view_other.
Qed.

(** ** The abstract machine *)

Lemma abs_drain_accepts t buf :
  Forall accepts buf →
  abs_drain t buf = (buf ≫= λ i, [Popped t i; Sent t i], []) ∧
  abs_drain_outcome buf = Return tt.
Proof.
  induction 1 as [|i rest Hi _ [IH1 IH2]]; [done|].
  simpl. unfold accepts in Hi.
  destruct (Task_apply_async _ _ _); [|by destruct Hi].
  by rewrite IH1, IH2.
Qed.

Lemma abs_drain_raises t pre (x : invocation) post e :
  Forall accepts pre →
  Task_apply_async x.1.1 x.1.2 x.2 = inr e →
  abs_drain t (pre ++ x :: post)
    = ((pre ++ [x]) ≫= λ i, [Popped t i; Sent t i], post) ∧
  abs_drain_outcome (pre ++ x :: post) = Raise (TransportError e).
Proof.
  intros Hpre Hx. induction Hpre as [|i rest Hi _ [IH1 IH2]]; simpl.
  - by rewrite Hx.
  - unfold accepts in Hi. destruct (Task_apply_async i.1.1 _ _); [|by destruct Hi].
    by rewrite IH1, IH2.
Qed.

(** ** Reading the log *)

Lemma sent_by_app t tr1 tr2 : sent_by t (tr1 ++ tr2) = sent_by t tr1 ++ sent_by t tr2.
Proof. apply bind_app. Qed.

Lemma sent_by_events_of t tr : sent_by t (events_of t tr) = sent_by t tr.
Proof.
  unfold sent_by, events_of. induction tr as [|e tr IH]; [done|].
  destruct (decide (ev_tid e = t)) as [He|He].
  - rewrite filter_cons_True by done. by rewrite !bind_cons, IH.
  - rewrite filter_cons_False by done. rewrite bind_cons, IH.
    destruct e; simpl in *; try done. by rewrite decide_False.
Qed.

Lemma sent_by_pops t buf : sent_by t (buf ≫= λ i, [Popped t i; Sent t i]) = buf.
Proof.
  unfold sent_by. induction buf as [|i buf IH]; [done|].
  rewrite bind_cons, bind_app, IH. simpl. by rewrite decide_True.
Qed.

Lemma sent_log_pops t buf :
  sent_log (buf ≫= λ i, [Popped t i; Sent t i]) = (λ i, (t, i)) <$> buf.
Proof.
  unfold sent_log. induction buf as [|i buf IH]; [done|].
  rewrite bind_cons, bind_app, IH. done.
Qed.

Lemma sent_by_appended t (l : list invocation) : sent_by t (Appended t <$> l) = [].
Proof. unfold sent_by. induction l as [|i l IH]; [done|]. by rewrite fmap_cons, bind_cons, IH. Qed.

Lemma sent_log_app tr1 tr2 : sent_log (tr1 ++ tr2) = sent_log tr1 ++ sent_log tr2.
Proof. apply bind_app. Qed.

Lemma sent_log_appended t (l : list invocation) : sent_log (Appended t <$> l) = [].
Proof. unfold sent_log. induction l as [|i l IH]; [done|]. by rewrite fmap_cons, bind_cons, IH. Qed.

(** ** Submissions inside an atomic block *)

Lemma submissions_spec t invs st :
  wf st → t ∈ in_atomic_block st → eager st = false →
  wf (run (submissions t invs) st) ∧
  buffer t (run (submissions t invs) st) = buffer t st ++ invs ∧
  trace (run (submissions t invs) st) = trace st ++ (Appended t <$> invs) ∧
  (∀ t', t' ≠ t → buffer t' (run (submissions t invs) st) = buffer t' st) ∧
  in_atomic_block (run (submissions t invs) st) = in_atomic_block st ∧
  eager (run (submissions t invs) st) = eager st.
Proof.
  revert st. induction invs as [|[[self a] kw] invs IH]; intros st Hwf Hin Heag.
  - simpl. rewrite !app_nil_r. done.
  - change (submissions t ((self, a, kw) :: invs))
      with ((t, Call_apply_async self a kw) :: submissions t invs).
    rewrite !run_cons.
    destruct (exec_spec t (Call_apply_async self a kw) st Hwf)
      as (Hwf1 & Hbuf1 & Htr1 & Hoth1 & _ & Hcfg1 & Hat1).
    set (st1 := exec t (Call_apply_async self a kw) st) in *.
    cbn [abs_effect] in Hbuf1, Htr1. rewrite Heag in Hbuf1, Htr1.
    rewrite bool_decide_eq_true_2 in Hbuf1, Htr1 by done.
    cbn [andb negb fst snd] in Hbuf1, Htr1.
    assert (Heag1 : eager st1 = false) by (unfold eager; by rewrite Hcfg1).
    destruct (IH st1) as (Hwf2 & Hbuf2 & Htr2 & Hoth2 & Hat2 & Heag2);
      [done|by rewrite Hat1|done|].
    split; [done|]. split; [by rewrite Hbuf2, Hbuf1, <- app_assoc|].
    split; [by rewrite Htr2, Htr1, <- app_assoc|].
    split; [by intros t' Hne; rewrite Hoth2, Hoth1|].
    split; [by rewrite Hat2, Hat1|]. by rewrite Heag2, Heag1, Heag.
Qed.

(** A thread whose buffer is empty and that submits nothing sends nothing,
    whatever the other threads do. *)
Lemma abs_quiet t eag cs :
  Forall (λ c, ¬ submits c) cs →
  ∀ x, c_buffer x = [] →
       c_buffer (foldl (abs_step t eag) x cs) = [] ∧
       sent_by t (c_events (foldl (abs_step t eag) x cs)) = sent_by t (c_events x).
Proof.
  induction 1 as [|c cs Hc _ IH]; intros x Hx; [done|].
  simpl. destruct (IH (abs_step t eag x c)) as [IH1 IH2].
  - unfold abs_step. rewrite Hx. by destruct c.
  - split; [done|]. rewrite IH2. unfold abs_step. rewrite Hx. simpl.
    rewrite sent_by_app.
    destruct c; simpl in *; try (by rewrite app_nil_r); by destruct Hc.
Qed.

Lemma quiet_thread t s st :
  wf st → buffer t st = [] → Forall (λ c, ¬ submits c) (calls_of t s) →
  sent_by t (trace (run s st)) = sent_by t (trace st) ∧ buffer t (run s st) = [].
Proof.
  intros Hwf Hbuf Hs.
  destruct (abs_quiet t (eager st) _ Hs (view t st) Hbuf) as [H1 H2].
  rewrite <- run_view in H1, H2 by done. simpl in H1, H2.
  rewrite !sent_by_events_of in H2. done.
Qed.


Lemma popped_by_app t tr1 tr2 :
  popped_by t (tr1 ++ tr2) = popped_by t tr1 ++ popped_by t tr2.
Proof. apply bind_app. Qed.

Lemma popped_by_pops t buf : popped_by t (buf ≫= λ i, [Popped t i; Sent t i]) = buf.
Proof.
  unfold popped_by. induction buf as [|i buf IH]; [done|].
  rewrite bind_cons, bind_app, IH. simpl. by rewrite decide_True.
Qed.

(** ** Accounting: what enters a buffer leaves it once *)

Lemma abs_drain_account t buf :
  appended_by t (abs_drain t buf).1 = [] ∧
  removed_by t (abs_drain t buf).1 ++ (abs_drain t buf).2 = buf.
Proof.
  unfold appended_by, removed_by.
  induction buf as [|i rest [IH1 IH2]]; [done|].
  cbn [abs_drain]. destruct (Task_apply_async _ _ _); cbn [fst snd];
    rewrite !bind_cons; cbn [app]; rewrite decide_True by done.
  - split; [done|]. cbn [app]. by rewrite IH2.
  - done.
Qed.

Lemma abs_effect_account t eag atomic buf c :
  buf ++ appended_by t (abs_effect t eag atomic buf c).1
    = removed_by t (abs_effect t eag atomic buf c).1 ++ (abs_effect t eag atomic buf c).2.
Proof.
  destruct c; simpl.
  - destruct (atomic && negb eag); unfold appended_by, removed_by; simpl.
    + by rewrite decide_True.
    + by rewrite app_nil_r.
  - by rewrite app_nil_r.
  - destruct (abs_drain_account t buf) as [-> ->]. by rewrite app_nil_r.
  - unfold appended_by, removed_by. simpl. by rewrite decide_True, !app_nil_r.
  - by rewrite app_nil_r.
  - by rewrite app_nil_r.
Qed.

Lemma foreign_events t t' evs :
  t' ≠ t → Forall (λ e, ev_tid e = t) evs →
  appended_by t' evs = [] ∧ removed_by t' evs = [].
Proof.
  intros Hne Hevs. unfold appended_by, removed_by.
  induction Hevs as [|e evs He _ [IH1 IH2]]; [done|].
  rewrite !bind_cons, IH1, IH2.
  destruct e; simpl in *; subst; rewrite ?decide_False by done; done.
Qed.

Lemma accounting_invariant s eag t :
  appended_by t (trace (run s (init eag)))
    = removed_by t (trace (run s (init eag))) ++ buffer t (run s (init eag)).
Proof.
  assert (Hgen : ∀ st,
    wf st →
    (∀ t, appended_by t (trace st) = removed_by t (trace st) ++ buffer t st) →
    ∀ t, appended_by t (trace (run s st))
         = removed_by t (trace (run s st)) ++ buffer t (run s st)).
  { clear t. induction s as [|[t0 c] s IH]; intros st Hwf Hinv; [done|].
    rewrite run_cons. apply IH; [by apply exec_wf|].
    intros t. destruct (exec_spec t0 c st Hwf) as (_ & Hbuf & Htr & Hoth & _).
    rewrite Htr. unfold appended_by, removed_by. rewrite !bind_app.
    fold (appended_by t (trace st)) (removed_by t (trace st)).
    destruct (decide (t = t0)) as [->|Hne].
    - rewrite Hbuf, Hinv, <- !app_assoc. f_equal. apply abs_effect_account.
    - destruct (foreign_events t0 t _ Hne (abs_effect_tid t0 (eager st)
          (bool_decide (t0 ∈ in_atomic_block st)) (buffer t0 st) c)) as [Ha Hr].
      unfold appended_by, removed_by in Ha, Hr. rewrite Ha, Hr, !app_nil_r.
      rewrite Hoth by done. apply Hinv. }
  apply Hgen; [apply wf_init|]. intros t'. done.
Qed.

Lemma paired_app tr1 tr2 : paired tr1 → paired tr2 → paired (tr1 ++ tr2).
Proof. induction 1; intros; simpl; try constructor; auto. Qed.

Lemma abs_drain_paired t buf : paired (abs_drain t buf).1.
Proof.
  induction buf as [|i rest IH]; simpl; [constructor|].
  destruct (Task_apply_async _ _ _); simpl; repeat constructor. done.
Qed.

Lemma abs_effect_paired t eag atomic buf c : paired (abs_effect t eag atomic buf c).1.
Proof.
  destruct c; simpl; try (repeat constructor).
  - destruct (atomic && negb eag); repeat constructor.
  - apply abs_drain_paired.
Qed.

Lemma run_paired s st : wf st → paired (trace st) → paired (trace (run s st)).
Proof.
  revert st. induction s as [|[t c] s IH]; intros st Hwf Hp; [done|].
  rewrite run_cons. apply IH; [by apply exec_wf|].
  destruct (exec_spec t c st Hwf) as (_ & _ & -> & _).
  apply paired_app; [done|apply abs_effect_paired].
Qed.

(** In a paired log, the transport calls that follow a pop are the pops. *)
Lemma dispatched_from_buffer_paired t tr :
  paired tr → dispatched_from_buffer t tr = popped_by t tr.
Proof.
  unfold popped_by. induction 1 as [|t' i tr Hp IH|t' i tr Hp IH|t' q tr Hp IH|t' i tr Hp IH].
  - done.
  - cbn [dispatched_from_buffer]. rewrite !bind_cons. simpl.
    destruct (decide (t' = t)) as [->|Hne].
    + rewrite decide_True by done. simpl. f_equal.
      cbn [dispatched_from_buffer]. destruct tr as [|[] ?]; exact IH.
    + rewrite decide_False by (intros [? ?]; done). simpl.
      cbn [dispatched_from_buffer]. destruct tr as [|[] ?]; exact IH.
  - cbn [dispatched_from_buffer]. rewrite bind_cons. simpl.
    destruct tr as [|[] ?]; exact IH.
  - cbn [dispatched_from_buffer]. rewrite bind_cons. simpl.
    destruct tr as [|[] ?]; exact IH.
  - cbn [dispatched_from_buffer]. rewrite bind_cons. simpl.
    destruct tr as [|[] ?]; exact IH.
Qed.

Lemma removed_by_length t tr :
  length (removed_by t tr) = length (popped_by t tr) + length (discarded_by t tr).
Proof.
  unfold removed_by, popped_by, discarded_by.
  induction tr as [|e tr IH]; [done|].
  rewrite !bind_cons, !length_app, IH.
  destruct e; simpl; try lia; destruct (decide _); simpl; lia.
Qed.


Lemma removed_by_perm t tr :
  removed_by t tr ≡ₚ popped_by t tr ++ discarded_by t tr.
Proof.
  unfold removed_by, popped_by, discarded_by.
  induction tr as [|e tr IH]; [done|].
  rewrite !bind_cons, IH.
  destruct e; simpl; try done; destruct (decide _); simpl; try done.
  by rewrite Permutation_app_swap_app.
Qed.

(** ** One transaction on the abstract machine *)

Lemma abs_submit t invs :
  ∀ x, c_atomic x = true →
       foldl (abs_step t false) x ((λ i, Call_apply_async i.1.1 i.1.2 i.2) <$> invs)
         = Ctx (c_buffer x ++ invs) true (c_events x ++ (Appended t <$> invs)).
Proof.
  induction invs as [|[[self a] kw] invs IH]; intros [buf atomic evs] Hx;
    simpl in Hx; subst.
  - simpl. by rewrite !app_nil_r.
  - rewrite fmap_cons. cbn [foldl]. rewrite IH by done.
    unfold abs_step. simpl. by rewrite <- !app_assoc.
Qed.

Lemma abs_transaction t invs signal x :
  foldl (abs_step t false) x (transaction invs signal)
    = abs_step t false
        (Ctx (c_buffer x ++ invs) false (c_events x ++ (Appended t <$> invs))) signal.
Proof.
  unfold transaction. cbn [foldl]. rewrite foldl_app.
  rewrite abs_submit by reflexivity.
  cbn [foldl]. f_equal. unfold abs_step. simpl. by rewrite !app_nil_r.
Qed.

(** ** Interleaving inside calls *)

Lemma thread_step_view t st st' evs buf' :
  thread_step t st st' evs buf' →
  Forall (λ e, ev_tid e = t) evs →
  wf st' ∧
  (∀ t' q, task_queue t' st = Some q → task_queue t' st' = Some q) ∧
  view t st' = Ctx buf' (c_atomic (view t st)) (c_events (view t st) ++ evs) ∧
  (∀ t', t' ≠ t → view t' st' = view t' st) ∧
  eager st' = eager st.
Proof.
  intros (Hwf & Hbuf & Htr & Hoth & Hreg & Hat & Hcfg) Hevs.
  split; [done|]. split; [done|]. split; [|split].
  - unfold view. rewrite Hbuf, Htr, Hat, events_of_own by done. done.
  - intros t' Hne. unfold view.
    rewrite Hoth, Htr, Hat, (events_of_other t) by done. done.
  - unfold eager. by rewrite Hcfg.
Qed.

Lemma call_begin_spec t c st :
  wf st → micro_ok t st (call_begin t c st) (abs_step t (eager st) (view t st) c).
Proof.
  intros Hwf.
  assert (Hget : ∀ (mk : loc → frame),
    (∀ q, frame_queue (mk q) = Some q) →
    ∀ x, (∀ q, pending t (mk q) (view t st) = x) →
    micro_ok t st
      (match _get_task_queue t st with
       | (Return q, st') => (mk q, st')
       | (_, st') => (Idle, st')
       end) x).
  { intros mk Hmk x Hx.
    destruct (get_task_queue_step t st Hwf) as (q & st' & -> & Hq & Hstep).
    destruct (thread_step_view t st st' [] _ Hstep) as (Hwf' & Hreg & Hv & Hoth & Heag);
      [constructor|].
    unfold micro_ok. cbn [fst snd].
    split; [done|]. split; [done|]. split; [|split; [|done]].
    - intros q'. rewrite Hmk. by intros [= <-].
    - rewrite <- (Hx q). f_equal. by rewrite Hv, app_nil_r. }
  assert (Hlog : ∀ e, ev_tid e = t →
    micro_ok t st (Idle, log e st)
      (Ctx (c_buffer (view t st)) (c_atomic (view t st)) (c_events (view t st) ++ [e]))).
  { intros e He.
    destruct (thread_step_view t st (log e st) [e] _ (log_step t e st Hwf))
      as (Hwf' & Hreg & Hv & Hoth & Heag); [by repeat constructor|].
    split; [done|]. split; [done|]. split; [done|]. by split. }
  destruct c as [self a kw|self a kw| | | |b]; cbn [call_begin].
  - unfold abs_step. cbn [abs_effect view c_atomic c_buffer c_events].
    destruct (bool_decide (t ∈ in_atomic_block st) && negb (eager st)).
    + by apply (Hget (λ q, At_append q (self, a, kw))).
    + rewrite original_apply_async_eq. by apply Hlog.
  - rewrite original_apply_async_eq. by apply Hlog.
  - by apply (Hget At_while).
  - by apply (Hget At_clear).
  - destruct (get_task_queue_step t st Hwf) as (q & st' & -> & Hq & Hstep).
    destruct (thread_step_view t st st' [] _ Hstep) as (Hwf' & Hreg & Hv & Hoth & Heag);
      [constructor|].
    split; [done|]. split; [done|]. split; [done|]. split; [|done].
    cbn [fst snd pending]. rewrite Hv. unfold abs_step. simpl. done.
  - destruct (exec_spec t (Host_set_in_atomic_block b) st Hwf)
      as (Hwf' & _ & _ & _ & Hreg & _).
    split; [done|]. split; [done|]. split; [done|].
    split; [by apply exec_view|]. split; [by intros; apply exec_view_other|].
    by apply exec_eager.
Qed.

Lemma call_resume_spec t f st :
  wf st →
  (∀ q, frame_queue f = Some q → task_queue t st = Some q) →
  micro_ok t st (call_resume t f st) (pending t f (view t st)).
Proof.
  intros Hwf Hf.
  assert (Hsame : ∀ f', (∀ q, frame_queue f' = Some q → task_queue t st = Some q) →
                        micro_ok t st (f', st) (pending t f' (view t st))).
  { intros f' Hf'. split; [done|]. by repeat split. }
  assert (Hupd : ∀ f' q g xs e,
    task_queue t st = Some q →
    (∀ q', frame_queue f' = Some q' → q' = q) →
    ev_tid e = t →
    g (heap st) !! q = Some xs →
    (∀ l, l ≠ q → g (heap st) !! l = heap st !! l) →
    ∀ x, pending t f' (Ctx xs (c_atomic (view t st)) (c_events (view t st) ++ [e])) = x →
    micro_ok t st (f', log e (set_heap g st)) x).
  { intros f' q g xs e Hq Hf' He Hgq Hg x Hx.
    destruct (thread_step_view t st _ [e] xs (update_queue_step t q g xs e st Hwf Hq Hgq Hg))
      as (Hwf' & Hreg & Hv & Hoth & Heag); [by repeat constructor|].
    split; [done|]. split; [done|]. split; [|split; [|done]].
    - intros q' Hq'. rewrite (Hf' q' Hq'). by apply Hreg.
    - cbn [fst snd]. by rewrite Hv. }
  destruct f as [|q i|q|q|q|q i]; cbn [call_resume].
  - by apply Hsame.
  - pose proof (Hf q eq_refl) as Hq.
    apply (Hupd Idle q _ (buffer t st ++ [i])); try done.
    + by rewrite lookup_alter_eq, (heap_registered t q st).
    + intros l Hl. by rewrite lookup_alter_ne.
  - pose proof (Hf q eq_refl) as Hq.
    cbn [list_clear modify fst snd]. unfold list_clear, modify. cbn [snd].
    rewrite <- (buffer_registered t q st Hq).
    apply (Hupd Idle q _ []); try done.
    + by rewrite lookup_alter_eq, (heap_registered t q st).
    + intros l Hl. by rewrite lookup_alter_ne.
  - pose proof (Hf q eq_refl) as Hq.
    unfold list_bool, get. rewrite <- (buffer_registered t q st Hq).
    destruct (buffer t st) as [|i rest] eqn:Hbuf.
    + destruct (Hsame Idle) as (? & ? & ? & Hp & ? & ?); [done|].
      split; [done|]. split; [done|]. split; [done|]. split; [|done].
      cbn [fst snd pending]. unfold view. rewrite Hbuf.
      cbn [c_buffer c_atomic c_events abs_drain fst snd].
      by rewrite app_nil_r.
    + by apply (Hsame (At_pop q)).
  - pose proof (Hf q eq_refl) as Hq.
    unfold list_pop0. rewrite <- (buffer_registered t q st Hq).
    destruct (buffer t st) as [|i rest] eqn:Hbuf.
    + destruct (Hsame Idle) as (? & ? & ? & Hp & ? & ?); [done|].
      split; [done|]. split; [done|]. split; [done|]. split; [|done].
      cbn [fst snd pending]. unfold view. rewrite Hbuf.
      cbn [c_buffer c_atomic c_events abs_drain fst snd].
      by rewrite app_nil_r.
    + apply (Hupd (At_send q i) q _ rest); try done.
      * by intros q' [= <-].
      * apply lookup_insert_eq.
      * intros l Hl. by rewrite lookup_insert_ne.
      * unfold view. rewrite Hbuf.
        cbn [pending c_buffer c_atomic c_events abs_drain].
        destruct (Task_apply_async _ _ _); cbn [fst snd];
          by rewrite <- app_assoc.
  - pose proof (Hf q eq_refl) as Hq.
    destruct i as [[tsk a] kw]. cbn [fst snd].
    rewrite original_apply_async_eq.
    destruct (thread_step_view t st (log (Sent t (tsk, a, kw)) st) [Sent t (tsk, a, kw)] _
                (log_step t _ st Hwf))
      as (Hwf' & Hreg & Hv & Hoth & Heag); [by repeat constructor|].
    cbn [pending fst snd].
    destruct (Task_apply_async tsk a kw) as [r|e].
    + split; [done|]. split; [done|]. split; [|split; [|done]].
      * intros q' [= <-]. by apply Hreg.
      * cbn [fst snd pending]. rewrite Hv. cbn [c_buffer c_atomic c_events].
        by rewrite <- app_assoc.
    + split; [done|]. split; [done|]. split; [done|]. split; [|done].
      cbn [fst snd pending]. by rewrite Hv.
Qed.

(** One operation of one thread keeps the pool in order, and changes the
    destiny of no thread: that of the thread that moved, because the
    operation is part of the call it was going to finish anyway; that of the
    others, because they saw nothing. *)
Lemma fine_step_spec t (σ : @pool task args kwargs) :
  pool_ok σ →
  pool_ok (fine_step t σ) ∧
  eager (p_state (fine_step t σ)) = eager (p_state σ) ∧
  (∀ t0, destiny t0 (fine_step t σ) = destiny t0 σ) ∧
  (∀ t', t' ≠ t → buffer t' (p_state (fine_step t σ)) = buffer t' (p_state σ)).
Proof.
  intros Hok. pose proof Hok as [Hwf Hframes].
  assert (Hstay : pool_ok σ ∧ eager (p_state σ) = eager (p_state σ) ∧
    (∀ t0, destiny t0 σ = destiny t0 σ) ∧
    (∀ t', t' ≠ t → buffer t' (p_state σ) = buffer t' (p_state σ))) by done.
  assert (Hmove : ∀ f (cs0 cs : list call) (r : frame * state),
    p_threads σ !! t = Some (Thread f (cs0 ++ cs)) →
    micro_ok t (p_state σ) r
      (foldl (abs_step t (eager (p_state σ))) (pending t f (view t (p_state σ))) cs0) →
    let σ' := Pool r.2 (<[t := Thread r.1 cs]> (p_threads σ)) in
    pool_ok σ' ∧ eager (p_state σ') = eager (p_state σ) ∧
    (∀ t0, destiny t0 σ' = destiny t0 σ) ∧
    (∀ t', t' ≠ t → buffer t' (p_state σ') = buffer t' (p_state σ))).
  { intros f cs0 cs r Hth (Hwf' & Hreg & Hq & Hp & Hoth & Heag) σ'.
    split; [|split; [done|split]].
    - split; [done|]. intros t1 th q. unfold σ'. cbn [p_threads p_state].
      destruct (decide (t1 = t)) as [->|Hne].
      + rewrite lookup_insert_eq. intros [= <-]. apply Hq.
      + rewrite lookup_insert_ne by done. intros Hth1 Hq1. apply Hreg. eauto.
    - intros t0. unfold destiny, σ'. cbn [p_threads p_state].
      destruct (decide (t0 = t)) as [->|Hne].
      + rewrite lookup_insert_eq, Hth. cbn [th_frame th_todo].
        by rewrite Heag, Hp, foldl_app.
      + rewrite lookup_insert_ne by done. rewrite Heag, Hoth by done. done.
    - intros t' Hne. unfold σ'. cbn [p_state].
      exact (f_equal c_buffer (Hoth t' Hne)). }
  unfold fine_step.
  destruct (p_threads σ !! t) as [[f cs]|] eqn:Hth; [|exact Hstay].
  assert (Hf : ∀ q, frame_queue f = Some q → task_queue t (p_state σ) = Some q).
  { intros q. by apply (Hframes t (Thread f cs)). }
  assert (Hres : f ≠ Idle →
    let r := call_resume t f (p_state σ) in
    let σ' := Pool r.2 (<[t := Thread r.1 cs]> (p_threads σ)) in
    pool_ok σ' ∧ eager (p_state σ') = eager (p_state σ) ∧
    (∀ t0, destiny t0 σ' = destiny t0 σ) ∧
    (∀ t', t' ≠ t → buffer t' (p_state σ') = buffer t' (p_state σ))).
  { intros _. apply (Hmove f [] cs _ eq_refl). by apply call_resume_spec. }
  destruct f as [|q i|q|q|q|q i]; try (by apply Hres).
  destruct cs as [|c cs]; [exact Hstay|].
  apply (Hmove Idle [c] cs _ eq_refl). by apply call_begin_spec.
Qed.

Lemma fine_run_spec sch (σ : @pool task args kwargs) :
  pool_ok σ →
  pool_ok (fine_run sch σ) ∧
  eager (p_state (fine_run sch σ)) = eager (p_state σ) ∧
  ∀ t0, destiny t0 (fine_run sch σ) = destiny t0 σ.
Proof.
  revert σ. induction sch as [|t sch IH]; intros σ Hok; [done|].
  destruct (fine_step_spec t σ Hok) as (Hok1 & Heag1 & Hd1 & _).
  destruct (IH (fine_step t σ) Hok1) as (Hok2 & Heag2 & Hd2).
  split; [done|]. split; [by rewrite <- Heag1|].
  intros t0. by rewrite <- Hd1.
Qed.

Lemma spawn_ok (progs : gmap tid (list call)) st : wf st → pool_ok (spawn progs st).
Proof.
  intros Hwf. split; [done|]. intros t th q. unfold spawn. cbn [p_threads].
  rewrite lookup_fmap. destruct (progs !! t); simpl; [|done].
  by intros [= <-].
Qed.

Lemma spawn_destiny t (progs : gmap tid (list call)) cs st :
  progs !! t = Some cs →
  destiny t (spawn progs st) = foldl (abs_step t (eager st)) (view t st) cs.
Proof.
  intros Hcs. unfold destiny, spawn. cbn [p_threads p_state].
  by rewrite lookup_fmap, Hcs.
Qed.

Lemma finished_destiny t (σ : @pool task args kwargs) :
  finished t σ → destiny t σ = view t (p_state σ).
Proof. unfold finished, destiny. by intros ->. Qed.

(** What a thread that was spawned with the calls [cs] sees when it has
    finished, whatever the scheduler did. *)
Lemma fine_run_view t (progs : gmap tid (list call)) cs sch st :
  wf st →
  progs !! t = Some cs →
  finished t (fine_run sch (spawn progs st)) →
  view t (p_state (fine_run sch (spawn progs st)))
    = foldl (abs_step t (eager st)) (view t st) cs.
Proof.
  intros Hwf Hcs Hfin.
  destruct (fine_run_spec sch (spawn progs st) (spawn_ok progs st Hwf)) as (_ & _ & Hd).
  by rewrite <- (finished_destiny _ _ Hfin), Hd, (spawn_destiny t progs cs).
Qed.

(** ** A call, run without interruption, is the function of the module *)

Lemma fine_run_cons t sch (σ : @pool task args kwargs) :
  fine_run (t :: sch) σ = fine_run sch (fine_step t σ).
Proof. done. Qed.

Lemma fine_step_resume t f cs st (ths : gmap tid thread) :
  ths !! t = Some (Thread f cs) → f ≠ Idle →
  fine_step t (Pool st ths)
    = Pool (call_resume t f st).2 (<[t := Thread (call_resume t f st).1 cs]> ths).
Proof.
  intros Hth Hf. unfold fine_step. cbn [p_threads p_state]. rewrite Hth.
  by destruct f.
Qed.

Lemma fine_step_begin t c cs st (ths : gmap tid thread) :
  ths !! t = Some (Thread Idle (c :: cs)) →
  fine_step t (Pool st ths)
    = Pool (call_begin t c st).2 (<[t := Thread (call_begin t c st).1 cs]> ths).
Proof. intros Hth. unfold fine_step. cbn [p_threads p_state]. by rewrite Hth. Qed.

(** The loop of [_send_tasks], one operation at a time. *)
Lemma fine_run_while t q buf :
  ∀ fuel st,
    list_contents q st = buf → length buf < fuel →
    ∃ n, ∀ cs (ths : gmap tid thread),
      ths !! t = Some (Thread (At_while q) cs) →
      fine_run (replicate n t) (Pool st ths)
        = Pool (while fuel (list_bool q) (send_tasks_body t q) st).2
               (<[t := Thread Idle cs]> ths).
Proof.
  induction buf as [|i rest IH]; intros fuel st Hc Hfuel;
    (destruct fuel as [|fuel]; [simpl in Hfuel; lia|]).
  - exists 1. intros cs ths Hth. cbn [replicate]. rewrite fine_run_cons.
    rewrite (fine_step_resume t (At_while q) cs) by done.
    cbn [call_resume while]. unfold bind, list_bool, get. rewrite Hc. done.
  - destruct i as [[tsk a] kw].
    set (st1 := log (Popped t (tsk, a, kw)) (set_heap (insert q rest) st)).
    set (st2 := log (Sent t (tsk, a, kw)) st1).
    assert (Hc2 : list_contents q st2 = rest).
    { unfold list_contents, st2, st1. simpl. by rewrite lookup_insert_eq. }
    assert (Hthree : ∀ cs (ths : gmap tid thread),
      ths !! t = Some (Thread (At_while q) cs) →
      fine_step t (fine_step t (fine_step t (Pool st ths)))
        = Pool st2 (<[t := Thread (match Task_apply_async tsk a kw with
                                   | inl _ => At_while q
                                   | inr _ => Idle
                                   end) cs]> ths)).
    { intros cs ths Hth.
      rewrite (fine_step_resume t (At_while q) cs) by done.
      cbn [call_resume]. unfold list_bool, get. rewrite Hc. cbn [fst snd].
      rewrite (fine_step_resume t (At_pop q) cs) by (by rewrite ?lookup_insert_eq).
      cbn [call_resume]. unfold list_pop0. rewrite Hc. cbn [fst snd].
      fold st1. rewrite insert_insert_eq.
      rewrite (fine_step_resume t (At_send q (tsk, a, kw)) cs)
        by (by rewrite ?lookup_insert_eq).
      cbn [call_resume fst snd]. rewrite original_apply_async_eq. fold st2.
      rewrite insert_insert_eq. by destruct (Task_apply_async tsk a kw). }
    assert (Hwhile : while (S fuel) (list_bool q) (send_tasks_body t q) st
      = match Task_apply_async tsk a kw with
        | inl _ => while fuel (list_bool q) (send_tasks_body t q) st2
        | inr e => (Raise (TransportError e), st2)
        end).
    { cbn [while]. unfold bind at 1. unfold list_bool at 1, get. rewrite Hc.
      unfold bind at 1. unfold send_tasks_body, bind at 1. unfold list_pop0. rewrite Hc.
      cbv beta iota. fold st1. unfold bind at 1.
      rewrite original_apply_async_eq. fold st2. unfold ret.
      by destruct (Task_apply_async tsk a kw). }
    rewrite Hwhile.
    destruct (Task_apply_async tsk a kw) as [r|e].
    + destruct (IH fuel st2 Hc2) as (n & Hn); [simpl in Hfuel; lia|].
      exists (3 + n). intros cs ths Hth.
      cbn [replicate Nat.add]. rewrite !fine_run_cons, (Hthree cs ths Hth).
      rewrite (Hn cs) by apply lookup_insert_eq. by rewrite insert_insert_eq.
    + exists 3. intros cs ths Hth.
      cbn [replicate]. rewrite !fine_run_cons, (Hthree cs ths Hth). done.
Qed.

(** Every call: the operations of thread [t], taken one after the other
    with no other thread in between, leave the state the function of the
    module leaves, and the thread ready for its next call. *)
Lemma fine_run_alone t c st :
  ∃ n, ∀ cs (ths : gmap tid thread),
    ths !! t = Some (Thread Idle (c :: cs)) →
    fine_run (replicate n t) (Pool st ths)
      = Pool (exec t c st) (<[t := Thread Idle cs]> ths).
Proof.
  assert (Hone : ∀ st',
    call_begin t c st = (Idle, st') → exec t c st = st' →
    ∃ n, ∀ cs (ths : gmap tid thread),
      ths !! t = Some (Thread Idle (c :: cs)) →
      fine_run (replicate n t) (Pool st ths)
        = Pool (exec t c st) (<[t := Thread Idle cs]> ths)).
  { intros st' Hb He. exists 1. intros cs ths Hth.
    cbn [replicate]. rewrite fine_run_cons, (fine_step_begin t c cs) by done.
    by rewrite Hb, He. }
  assert (Htwo : ∀ f st1,
    f ≠ Idle →
    call_begin t c st = (f, st1) →
    (call_resume t f st1).1 = Idle →
    exec t c st = (call_resume t f st1).2 →
    ∃ n, ∀ cs (ths : gmap tid thread),
      ths !! t = Some (Thread Idle (c :: cs)) →
      fine_run (replicate n t) (Pool st ths)
        = Pool (exec t c st) (<[t := Thread Idle cs]> ths)).
  { intros f st1 Hf Hb Hr He. exists 2. intros cs ths Hth.
    cbn [replicate]. rewrite !fine_run_cons, (fine_step_begin t c cs) by done.
    rewrite Hb. cbn [fst snd].
    rewrite (fine_step_resume t f cs) by (done || apply lookup_insert_eq).
    by rewrite Hr, He, insert_insert_eq. }
  destruct (get_task_queue_total t st) as (q & st1 & Hq).
  destruct c as [self a kw|self a kw| | | |b].
  - destruct (bool_decide (t ∈ in_atomic_block st) && negb (eager st)) eqn:Hcond.
    + apply (Htwo (At_append q (self, a, kw)) st1); [done| |done|].
      * cbn [call_begin]. by rewrite Hcond, Hq.
      * cbn [exec call_resume]. unfold apply_async, bind, get. fold (eager st).
        by rewrite Hcond, Hq.
    + apply (Hone (original_apply_async t self a kw st).2).
      * cbn [call_begin]. by rewrite Hcond.
      * cbn [exec]. unfold apply_async, bind, get. fold (eager st).
        rewrite Hcond, original_apply_async_eq. by destruct (Task_apply_async _ _ _).
  - by apply (Hone (original_apply_async t self a kw st).2).
  - destruct (fine_run_while t q (list_contents q st1) (S (length (list_contents q st1))) st1)
      as (n & Hn); [done|lia|].
    exists (S n). intros cs ths Hth.
    cbn [replicate]. rewrite fine_run_cons, (fine_step_begin t _ cs) by done.
    cbn [call_begin]. rewrite Hq. cbn [fst snd].
    rewrite (Hn cs) by apply lookup_insert_eq.
    rewrite insert_insert_eq. cbn [exec]. unfold _send_tasks, bind at 1.
    rewrite Hq. unfold bind at 1, get. done.
  - apply (Htwo (At_clear q) st1); [done| |done|].
    + cbn [call_begin]. by rewrite Hq.
    + cbn [exec call_resume]. unfold _discard_tasks, bind. by rewrite Hq.
  - apply (Hone (_get_task_queue t st).2); done.
  - by apply (Hone (exec t (Host_set_in_atomic_block b) st)).
Qed.

(** * The claims *)

(** C1, as amended.  Thread [t] is in an atomic block and eager mode is off;
    it submits the invocations [invs] through [apply_async], then the
    post_commit handler [_send_tasks] runs.  If the transport accepts every
    buffered invocation, the handler returns normally; the submissions sent
    nothing themselves; the handler hands to the transport exactly the
    buffered invocations (what the buffer held before, then [invs]), each
    once, popped and then sent, in the order of submission; and the buffer
    of [t] is empty afterwards. *)
Theorem commit_sends_all_in_order t invs st :
  wf st → t ∈ in_atomic_block st → eager st = false →
  Forall accepts (buffer t st ++ invs) →
  let st1 := run (submissions t invs) st in
  ∃ st2,
    _send_tasks t st1 = (Return tt, st2) ∧
    sent_log (trace st1) = sent_log (trace st) ∧
    trace st2 = trace st1 ++ ((buffer t st ++ invs) ≫= λ i, [Popped t i; Sent t i]) ∧
    sent_log (trace st2)
      = sent_log (trace st) ++ ((λ i, (t, i)) <$> (buffer t st ++ invs)) ∧
    buffer t st2 = [].
Proof.
  intros Hwf Hin Heag Hacc st1.
  destruct (submissions_spec t invs st Hwf Hin Heag)
    as (Hwf1 & Hbuf1 & Htr1 & _).
  fold st1 in Hwf1, Hbuf1, Htr1.
  destruct (send_tasks_spec t st1 Hwf1) as (st2 & Heq & _ & Hbuf2 & Htr2 & _).
  rewrite Hbuf1 in Heq, Hbuf2, Htr2.
  destruct (abs_drain_accepts t _ Hacc) as [Hd Ho].
  rewrite Ho in Heq. rewrite Hd in Hbuf2, Htr2. simpl in Hbuf2, Htr2.
  exists st2. split; [done|].
  assert (Hs1 : sent_log (trace st1) = sent_log (trace st)).
  { by rewrite Htr1, sent_log_app, sent_log_appended, app_nil_r. }
  split; [done|]. split; [done|]. split; [|done].
  by rewrite Htr2, sent_log_app, sent_log_pops, Hs1.
Qed.

(** C2.  Thread [t] is in an atomic block and eager mode is off; it submits
    [invs] through [apply_async], then the post_rollback handler
    [_discard_tasks] runs.  The handler returns normally, no transport call
    was made by the submissions or by the handler, the handler dropped
    exactly what was buffered, and the buffer of [t] is empty afterwards.
    Nor are the tasks sent later: in every schedule that follows, as long as
    [t] submits nothing new, [t] makes no transport call and its buffer
    stays empty. *)
Theorem rollback_discards_all t invs st :
  wf st → t ∈ in_atomic_block st → eager st = false →
  let st1 := run (submissions t invs) st in
  ∃ st2,
    _discard_tasks t st1 = (Return tt, st2) ∧
    trace st2 = trace st ++ (Appended t <$> invs) ++ [Cleared t (buffer t st ++ invs)] ∧
    sent_log (trace st2) = sent_log (trace st) ∧
    buffer t st2 = [] ∧
    ∀ s, Forall (λ c, ¬ submits c) (calls_of t s) →
         sent_by t (trace (run s st2)) = sent_by t (trace st) ∧
         buffer t (run s st2) = [].
Proof.
  intros Hwf Hin Heag st1.
  destruct (submissions_spec t invs st Hwf Hin Heag)
    as (Hwf1 & Hbuf1 & Htr1 & _).
  fold st1 in Hwf1, Hbuf1, Htr1.
  destruct (discard_tasks_spec t st1 Hwf1) as (st2 & Heq & Hwf2 & Hbuf2 & Htr2 & _).
  rewrite Hbuf1 in Htr2. rewrite Htr1, <- app_assoc in Htr2.
  exists st2. split; [done|]. split; [done|].
  assert (Hlog : sent_log (trace st2) = sent_log (trace st)).
  { rewrite Htr2, !sent_log_app, sent_log_appended. simpl. by rewrite !app_nil_r. }
  split; [done|]. split; [done|].
  intros s Hs. destruct (quiet_thread t s st2 Hwf2 Hbuf2 Hs) as [-> ->].
  split; [|done].
  rewrite Htr2, !sent_by_app, sent_by_appended. simpl. by rewrite !app_nil_r.
Qed.

(** C3.  [apply_async], called by thread [t].  When the
    connection of [t] is not in an atomic block, or [CELERY_ALWAYS_EAGER] is
    set and true, the call is the call to the transport: one transport call
    is logged, the caller gets what the transport returned (or the
    exception it raised), and no buffer changes.  Otherwise the call
    returns [None], appends exactly this invocation to the tail of the
    buffer of [t], makes no transport call, and leaves every other buffer
    alone. *)
Theorem apply_async_defers_or_sends t self a kw st :
  wf st →
  (t ∉ in_atomic_block st ∨ eager st = true →
     apply_async t self a kw st
       = (match Task_apply_async self a kw with
          | inl r => Return (Some r)
          | inr e => Raise (TransportError e)
          end, log (Sent t (self, a, kw)) st) ∧
     sent_log (trace (apply_async t self a kw st).2)
       = sent_log (trace st) ++ [(t, (self, a, kw))] ∧
     ∀ t', buffer t' (apply_async t self a kw st).2 = buffer t' st) ∧
  (t ∈ in_atomic_block st ∧ eager st = false →
     ∃ st',
       apply_async t self a kw st = (Return None, st') ∧
       buffer t st' = buffer t st ++ [(self, a, kw)] ∧
       trace st' = trace st ++ [Appended t (self, a, kw)] ∧
       sent_log (trace st') = sent_log (trace st) ∧
       ∀ t', t' ≠ t → buffer t' st' = buffer t' st).
Proof.
  intros Hwf. split.
  - intros Hnow. rewrite apply_async_immediate by done.
    split; [done|]. split; [|done]. simpl. by rewrite sent_log_app.
  - intros [Hin Heag].
    destruct (apply_async_deferred t self a kw st Hwf Hin Heag)
      as (st' & Heq & _ & Hbuf & Htr & Hoth & _).
    exists st'. split; [done|]. split; [done|]. split; [done|]. split; [|done].
    rewrite Htr, sent_log_app. simpl. by rewrite app_nil_r.
Qed.

(** C5.  [original_apply_async] does not look at the transaction: in every
    state, so also when the connection of the calling thread is in an atomic
    block that has not been committed, it calls the transport at once, the
    caller gets what the transport returned (or the exception it raised),
    nothing is buffered, and the connection stays in its atomic block.  The
    call stays in the log whatever happens next, a rollback included. *)
Theorem original_apply_async_immediate t self a kw st :
  original_apply_async t self a kw st
    = (match Task_apply_async self a kw with
       | inl r => Return r
       | inr e => Raise (TransportError e)
       end, log (Sent t (self, a, kw)) st) ∧
  trace (original_apply_async t self a kw st).2 = trace st ++ [Sent t (self, a, kw)] ∧
  sent_log (trace (original_apply_async t self a kw st).2)
    = sent_log (trace st) ++ [(t, (self, a, kw))] ∧
  in_atomic_block (original_apply_async t self a kw st).2 = in_atomic_block st ∧
  (∀ t', buffer t' (original_apply_async t self a kw st).2 = buffer t' st) ∧
  (wf st →
   ∀ s, ∃ evs, trace (run s (original_apply_async t self a kw st).2)
               = trace st ++ Sent t (self, a, kw) :: evs).
Proof.
  rewrite original_apply_async_eq. split; [done|]. split; [done|].
  split; [simpl; by rewrite sent_log_app|]. split; [done|]. split; [done|].
  intros Hwf s. cbn [snd].
  destruct (run_trace s (log (Sent t (self, a, kw)) st)) as (evs & ->).
  - apply (log_step t _ st Hwf).
  - exists evs. simpl. by rewrite <- app_assoc.
Qed.

(** C6.  On a thread whose buffer is empty, [_discard_tasks] and
    [_send_tasks] both return normally, make no transport call, pop
    nothing, leave the buffer of the thread empty, and change no other
    buffer and no setting. *)
Theorem drain_empty_noop t st :
  wf st → buffer t st = [] →
  (∃ st',
     _discard_tasks t st = (Return tt, st') ∧
     trace st' = trace st ++ [Cleared t []] ∧
     sent_log (trace st') = sent_log (trace st) ∧
     (∀ t', buffer t' st' = buffer t' st) ∧
     same_env st st') ∧
  (∃ st',
     _send_tasks t st = (Return tt, st') ∧
     trace st' = trace st ∧
     (∀ t', buffer t' st' = buffer t' st) ∧
     same_env st st').
Proof.
  intros Hwf Hbuf. split.
  - destruct (discard_tasks_spec t st Hwf) as (st' & Heq & _ & Hbuf' & Htr & Hoth & _ & Henv).
    rewrite Hbuf in Htr.
    exists st'. split; [done|]. split; [done|].
    split; [by rewrite Htr, sent_log_app, app_nil_r|]. split; [|done].
    intros t'. destruct (decide (t' = t)) as [->|Hne]; [by rewrite Hbuf', Hbuf|by apply Hoth].
  - destruct (send_tasks_spec t st Hwf) as (st' & Heq & _ & Hbuf' & Htr & Hoth & _ & Henv).
    rewrite Hbuf in Heq, Hbuf', Htr. simpl in Heq, Hbuf', Htr. rewrite app_nil_r in Htr.
    exists st'. split; [done|]. split; [done|]. split; [|done].
    intros t'. destruct (decide (t' = t)) as [->|Hne]; [by rewrite Hbuf', Hbuf|by apply Hoth].
Qed.

(** C8.  [_get_task_queue] never raises.  For a thread [t] that has no list
    registered, the buffer counts as empty; the call returns a list that did
    not exist before, that is empty, that no other thread has registered,
    and that is now registered for [t]; and after any further schedule of
    calls by any threads, [_get_task_queue] in [t] returns that same list. *)
Theorem get_task_queue_unregistered t st :
  wf st → task_queue t st = None →
  (∀ st0 : state, ∃ q st', _get_task_queue t st0 = (Return q, st')) ∧
  buffer t st = [] ∧
  ∃ q st',
    _get_task_queue t st = (Return q, st') ∧
    heap st !! q = None ∧
    heap st' !! q = Some [] ∧
    task_queue t st' = Some q ∧
    (∀ t', t' ≠ t → task_queue t' st' ≠ Some q) ∧
    ∀ s, ∃ st'', _get_task_queue t (run s st') = (Return q, st'').
Proof.
  intros Hwf Hnone. split; [intros st0; apply get_task_queue_total|].
  split; [unfold buffer; by rewrite Hnone|].
  destruct (get_task_queue_spec t st Hwf)
    as (q & st' & Heq & Hwf' & Hq & _ & Hnew & _).
  destruct (Hnew Hnone) as [-> Hempty].
  exists (next_loc st), st'. split; [done|].
  split; [apply (wf_fresh _ Hwf); lia|]. split; [done|]. split; [done|].
  split.
  - intros t' Hne Hq'. apply Hne. by eapply (wf_sep _ Hwf').
  - intros s.
    destruct (get_task_queue_spec t (run s st') (run_wf s st' Hwf'))
      as (q2 & st'' & Heq2 & _ & _ & Hold & _).
    exists st''. rewrite Heq2. f_equal. f_equal. apply Hold.
    by apply run_task_queue.
Qed.

(** C4, as amended.  [_send_tasks] has no handler around the transport
    call.  When the buffer of [t] holds [pre], then [x], then [post], the
    transport accepts [pre] and raises [e] on [x], the handler raises [e]
    after handing [pre] and [x] to the transport, and the drain stops there:
    this call makes no transport call for an invocation of [post], and
    [post] is what stays in the buffer. *)
Theorem send_tasks_stops_at_first_failure t pre (x : invocation) post e st :
  wf st →
  buffer t st = pre ++ x :: post →
  Forall accepts pre →
  Task_apply_async x.1.1 x.1.2 x.2 = inr e →
  ∃ st',
    _send_tasks t st = (Raise (TransportError e), st') ∧
    sent_log (trace st') = sent_log (trace st) ++ ((λ i, (t, i)) <$> pre ++ [x]) ∧
    sent_by t (trace st') = sent_by t (trace st) ++ pre ++ [x] ∧
    buffer t st' = post.
Proof.
  intros Hwf Hbuf Hpre Hx.
  destruct (send_tasks_spec t st Hwf) as (st' & Heq & Hwf' & Hbuf' & Htr' & _).
  rewrite Hbuf in Heq, Hbuf', Htr'.
  destruct (abs_drain_raises t pre x post e Hpre Hx) as [Hd Ho].
  rewrite Ho in Heq. rewrite Hd in Hbuf', Htr'. simpl in Hbuf', Htr'.
  exists st'. split; [done|].
  split; [by rewrite Htr', sent_log_app, sent_log_pops|].
  split; [by rewrite Htr', sent_by_app, sent_by_pops|done].
Qed.

(** C9, as amended.  A call by one thread leaves the buffer of every other
    thread as it was, and so does each single operation inside a call.  Let
    thread [a] run a transaction that submits [tasksA] and commits, and
    thread [b] a transaction that submits [tasksB] and rolls back, both
    starting with an empty buffer and with eager mode off, next to any other
    threads making any calls.  Let the scheduler switch threads as it likes,
    also in the middle of a call, between any two operations.  If the
    transport accepts every task of [tasksA], then once [a] and [b] have
    finished, [a] has sent exactly [tasksA], in order, [b] has sent nothing,
    and both buffers are empty. *)
Theorem buffers_isolated a b tasksA tasksB (progs : gmap tid (list call)) sch st :
  wf st → eager st = false →
  buffer a st = [] → buffer b st = [] →
  Forall accepts tasksA →
  progs !! a = Some (transaction tasksA Signal_post_commit) →
  progs !! b = Some (transaction tasksB Signal_post_rollback) →
  finished a (fine_run sch (spawn progs st)) →
  finished b (fine_run sch (spawn progs st)) →
  (∀ t t' c (st0 : state),
     wf st0 → t' ≠ t → buffer t' (exec t c st0) = buffer t' st0) ∧
  (∀ t t' (σ : @pool task args kwargs),
     pool_ok σ → t' ≠ t →
     buffer t' (p_state (fine_step t σ)) = buffer t' (p_state σ)) ∧
  sent_by a (trace (p_state (fine_run sch (spawn progs st)))) = sent_by a (trace st) ++ tasksA ∧
  sent_by b (trace (p_state (fine_run sch (spawn progs st)))) = sent_by b (trace st) ∧
  buffer a (p_state (fine_run sch (spawn progs st))) = [] ∧
  buffer b (p_state (fine_run sch (spawn progs st))) = [].
Proof.
  intros Hwf Heag Ha Hb Hacc Hpa Hpb Hfa Hfb.
  split. { intros t t' c st0 Hwf0 Hne. by apply (exec_spec t c st0 Hwf0). }
  split. { intros t t' σ Hok Hne. by apply (fine_step_spec t σ Hok). }
  pose proof (fine_run_view a progs _ sch st Hwf Hpa Hfa) as Hva.
  pose proof (fine_run_view b progs _ sch st Hwf Hpb Hfb) as Hvb.
  set (st' := p_state (fine_run sch (spawn progs st))) in *.
  rewrite Heag, abs_transaction in Hva, Hvb.
  unfold abs_step in Hva, Hvb. cbn [abs_effect view c_buffer c_events c_atomic] in Hva, Hvb.
  rewrite Ha in Hva. rewrite Hb in Hvb. cbn [app] in Hva, Hvb.
  destruct (abs_drain_accepts a tasksA Hacc) as [Hd _]. rewrite Hd in Hva.
  cbn [fst snd] in Hva, Hvb.
  injection Hva as Hbufa _ Heva. injection Hvb as Hbufb _ Hevb.
  rewrite <- (sent_by_events_of a (trace st')), Heva.
  rewrite <- (sent_by_events_of b (trace st')), Hevb.
  rewrite !sent_by_app, !sent_by_events_of, !sent_by_appended, sent_by_pops.
  simpl. rewrite !app_nil_r. done.
Qed.

(** C10.  In [_send_tasks] an invocation is popped before it is sent: one
    turn of the loop on a buffer [i :: rest] first leaves [rest] in the
    buffer and then calls the transport on [i].  So when the buffer of [t]
    holds [pre], then [x], then [post], the transport accepts [pre] and
    raises [e] on [x], the handler raises [e] to its caller, the log shows
    each invocation of [pre ++ [x]] popped and then sent, all of them are
    out of the buffer and [x] is not put back, and [post] is still
    buffered. *)
Theorem send_tasks_pops_before_sending t pre (x : invocation) post e st :
  wf st →
  buffer t st = pre ++ x :: post →
  Forall accepts pre →
  Task_apply_async x.1.1 x.1.2 x.2 = inr e →
  (∀ q i rest (st0 : state),
     wf st0 → task_queue t st0 = Some q → buffer t st0 = i :: rest →
     ∃ st1, list_pop0 t q st0 = (Return i, st1) ∧
            buffer t st1 = rest ∧
            send_tasks_body t q st0
              = (match Task_apply_async i.1.1 i.1.2 i.2 with
                 | inl _ => Return tt
                 | inr e' => Raise (TransportError e')
                 end, log (Sent t i) st1)) ∧
  ∃ st',
    _send_tasks t st = (Raise (TransportError e), st') ∧
    trace st' = trace st ++ ((pre ++ [x]) ≫= λ i, [Popped t i; Sent t i]) ∧
    popped_by t (trace st') = popped_by t (trace st) ++ pre ++ [x] ∧
    buffer t st' = post.
Proof.
  intros Hwf Hbuf Hpre Hx. split.
  - intros q i rest st0 Hwf0 Hq Hb0.
    pose proof (buffer_registered t q st0 Hq) as Hc. rewrite Hb0 in Hc.
    exists (log (Popped t i) (set_heap (insert q rest) st0)).
    split; [unfold list_pop0; by rewrite <- Hc|].
    split.
    + apply (update_queue_step t q (insert q rest) rest (Popped t i) st0);
        [done|done|apply lookup_insert_eq|].
      intros l Hl. by rewrite lookup_insert_ne.
    + unfold send_tasks_body, bind, list_pop0. rewrite <- Hc.
      destruct i as [[tsk a0] kw0]. rewrite original_apply_async_eq. simpl.
      by destruct (Task_apply_async tsk a0 kw0).
  - destruct (send_tasks_spec t st Hwf) as (st' & Heq & _ & Hbuf' & Htr' & _).
    rewrite Hbuf in Heq, Hbuf', Htr'.
    destruct (abs_drain_raises t pre x post e Hpre Hx) as [Hd Ho].
    rewrite Ho in Heq. rewrite Hd in Hbuf', Htr'. simpl in Hbuf', Htr'.
    exists st'. split; [done|]. split; [done|]. split; [|done].
    by rewrite Htr', popped_by_app, popped_by_pops.
Qed.

(** * Further properties of the module *)

Lemma appended_by_app t tr1 tr2 :
  appended_by t (tr1 ++ tr2) = appended_by t tr1 ++ appended_by t tr2.
Proof. apply bind_app. Qed.

Lemma appended_by_events_of t tr : appended_by t (events_of t tr) = appended_by t tr.
Proof.
  unfold appended_by, events_of. induction tr as [|e tr IH]; [done|].
  destruct (decide (ev_tid e = t)) as [He|He].
  - rewrite filter_cons_True by done. by rewrite !bind_cons, IH.
  - rewrite filter_cons_False by done. rewrite bind_cons, IH.
    destruct e; simpl in *; try done. by rewrite decide_False.
Qed.

(** With eager mode on, the abstract machine of a thread whose buffer is
    empty never buffers: every submission is a transport call. *)
Lemma abs_eager_step t x c :
  c_buffer x = [] →
  c_buffer (abs_step t true x c) = [] ∧
  ∃ evs, c_events (abs_step t true x c) = c_events x ++ evs ∧
         sent_by t evs = submitted [c] ∧ appended_by t evs = [].
Proof.
  intros Hx. unfold abs_step. rewrite Hx.
  destruct c as [self a kw|self a kw| | | |b]; cbn [abs_effect abs_drain];
    rewrite ?andb_false_r; cbn [c_buffer c_events fst snd];
    (split; [done|]); eexists; (split; [reflexivity|]);
    unfold sent_by, appended_by, submitted; simpl; by rewrite ?decide_True.
Qed.

Lemma abs_eager t cs :
  ∀ x, c_buffer x = [] →
       c_buffer (foldl (abs_step t true) x cs) = [] ∧
       sent_by t (c_events (foldl (abs_step t true) x cs))
         = sent_by t (c_events x) ++ submitted cs ∧
       appended_by t (c_events (foldl (abs_step t true) x cs))
         = appended_by t (c_events x).
Proof.
  induction cs as [|c cs IH]; intros x Hx.
  - simpl. by rewrite app_nil_r.
  - cbn [foldl].
    destruct (abs_eager_step t x c Hx) as (Hb & evs & Hev & Hs & Ha).
    destruct (IH (abs_step t true x c) Hb) as (IH1 & IH2 & IH3).
    split; [done|]. rewrite IH2, IH3, Hev, sent_by_app, appended_by_app, Hs, Ha.
    split; [|by rewrite app_nil_r].
    rewrite <- app_assoc. f_equal. unfold submitted. by rewrite <- bind_app.
Qed.

(** X1.  Under [tests/settings.py] ([CELERY_ALWAYS_EAGER = True]) nothing is
    ever deferred: after any schedule of calls by any threads, in or out of
    atomic blocks, every buffer is empty, nothing was ever appended to one,
    and each thread has handed to the transport exactly the invocations it
    submitted, through either entry point, in the order it submitted them. *)
Theorem eager_settings_never_defer s t :
  buffer t (run s test_interpreter) = [] ∧
  appended_by t (trace (run s test_interpreter)) = [] ∧
  sent_by t (trace (run s test_interpreter)) = submitted (calls_of t s).
Proof.
  pose proof (run_view t s test_interpreter (wf_init _)) as Hv.
  destruct (abs_eager t (calls_of t s) (view t test_interpreter)) as (H1 & H2 & H3);
    [done|].
  change (eager test_interpreter) with true in Hv. rewrite <- Hv in H1, H2, H3.
  cbn [view c_buffer c_events] in H1, H2, H3.
  rewrite sent_by_events_of in H2. rewrite appended_by_events_of in H3.
  done.
Qed.

Lemma abs_drain_outcome_return buf :
  abs_drain_outcome buf = Return tt ↔ Forall accepts buf.
Proof.
  induction buf as [|i rest IH]; simpl.
  - split; [constructor|done].
  - rewrite Forall_cons. unfold accepts at 1.
    destruct (Task_apply_async _ _ _) as [r|e].
    + rewrite IH. split; [by split; [eexists|]|by intros [_ ?]].
    + split; [done|]. by intros [[? [=]] _].
Qed.

Lemma abs_drain_outcome_raise buf ex :
  abs_drain_outcome buf = Raise ex →
  ∃ pre (x : invocation) post e,
    buf = pre ++ x :: post ∧ Forall accepts pre ∧
    Task_apply_async x.1.1 x.1.2 x.2 = inr e ∧ ex = TransportError e.
Proof.
  induction buf as [|i rest IH]; simpl; [done|].
  destruct (Task_apply_async _ _ _) as [r|e] eqn:Hi.
  - intros Hr. destruct (IH Hr) as (pre & x & post & e & -> & Hpre & Hx & ->).
    exists (i :: pre), x, post, e. split; [done|]. split; [|done].
    constructor; [|done]. unfold accepts. rewrite Hi. by eexists.
  - intros [= <-]. exists [], i, rest, e. by repeat split.
Qed.

(** X2.  How [_send_tasks] ends.  It returns normally exactly when the
    transport accepts every invocation in the buffer.  When it raises, what
    it raises is the exception of the transport on the first invocation the
    transport refuses: [queue.pop(0)] is guarded by the test of the loop and
    never raises [IndexError]. *)
Theorem send_tasks_outcome t st :
  wf st →
  ((∃ st', _send_tasks t st = (Return tt, st')) ↔ Forall accepts (buffer t st)) ∧
  (∀ ex st', _send_tasks t st = (Raise ex, st') →
     ∃ pre (x : invocation) post e,
       buffer t st = pre ++ x :: post ∧ Forall accepts pre ∧
       Task_apply_async x.1.1 x.1.2 x.2 = inr e ∧ ex = TransportError e) ∧
  (_send_tasks t st).1 ≠ Raise IndexError ∧
  (_send_tasks t st).1 ≠ OutOfFuel.
Proof.
  intros Hwf. destruct (send_tasks_spec t st Hwf) as (st1 & Heq & _).
  rewrite Heq. cbn [fst]. split; [|split; [|split]].
  - rewrite <- abs_drain_outcome_return. split.
    + by intros (st' & [= -> _]).
    + intros ->. by eexists.
  - intros ex st' [= Hex _]. by apply abs_drain_outcome_raise.
  - intros Hex. by destruct (abs_drain_outcome_raise _ _ Hex) as (? & ? & ? & ? & _ & _ & _ & ?).
  - destruct (send_tasks_total t st Hwf) as [(st' & Hr)|(e & st' & Hr)];
      rewrite Heq in Hr; by injection Hr as -> _.
Qed.

Lemma call_begin_not_pop t c st q : (call_begin t c st).1 ≠ At_pop q.
Proof.
  destruct (get_task_queue_total t st) as (q0 & st1 & Hq).
  destruct c as [self a kw|self a kw| | | |b]; cbn [call_begin];
    try destruct (bool_decide _ && negb _); rewrite ?Hq; done.
Qed.

Lemma call_resume_pop t f st q :
  (call_resume t f st).1 = At_pop q →
  f = At_while q ∧ (call_resume t f st).2 = st ∧ list_contents q st ≠ [].
Proof.
  destruct f as [|q0 i|q0|q0|q0|q0 i]; cbn [call_resume]; try done.
  - unfold list_bool, get. destruct (list_contents q0 st) as [|i rest] eqn:Hc; [done|].
    cbn [fst snd]. intros [= <-]. by rewrite Hc.
  - unfold list_pop0. by destruct (list_contents q0 st).
  - rewrite original_apply_async_eq. by destruct (Task_apply_async _ _ _).
Qed.

Lemma fine_step_threads_other t t1 (σ : @pool task args kwargs) :
  t1 ≠ t → p_threads (fine_step t σ) !! t1 = p_threads σ !! t1.
Proof.
  intros Hne. unfold fine_step.
  destruct (p_threads σ !! t) as [[f cs]|]; [|done].
  destruct f; try destruct cs; cbn [p_threads]; rewrite ?lookup_insert_ne by done; done.
Qed.

Lemma fine_step_pop_ready t (σ : @pool task args kwargs) :
  pool_ok σ → pop_ready σ → pop_ready (fine_step t σ).
Proof.
  intros Hok Hpr t1 th q Hth Hfr.
  destruct (fine_step_spec t σ Hok) as (_ & _ & _ & Hoth).
  destruct (decide (t1 = t)) as [->|Hne].
  - destruct Hok as [Hwf Hframes]. revert Hth. unfold fine_step.
    destruct (p_threads σ !! t) as [[f cs]|] eqn:Hold; [|by intros; eapply Hpr].
    assert (Hres : f ≠ Idle →
      (<[t := Thread (call_resume t f (p_state σ)).1 cs]> (p_threads σ)) !! t = Some th →
      buffer t (call_resume t f (p_state σ)).2 ≠ []).
    { intros _. rewrite lookup_insert_eq. intros [= <-]. cbn [th_frame] in Hfr.
      destruct (call_resume_pop t f (p_state σ) q Hfr) as (-> & -> & Hc).
      rewrite (buffer_registered t q); [done|].
      by apply (Hframes t (Thread (At_while q) cs)). }
    destruct f as [|q0 i|q0|q0|q0|q0 i]; try (by apply Hres).
    destruct cs as [|c cs].
    + cbn [p_threads p_state]. rewrite Hold. intros [= <-]. done.
    + cbn [p_threads p_state]. rewrite lookup_insert_eq. intros [= <-].
      cbn [th_frame] in Hfr. by destruct (call_begin_not_pop t c (p_state σ) q).
  - rewrite Hoth by done. rewrite fine_step_threads_other in Hth by done.
    by eapply Hpr.
Qed.

Lemma fine_run_pop_ready sch (σ : @pool task args kwargs) :
  pool_ok σ → pop_ready σ → pop_ready (fine_run sch σ).
Proof.
  revert σ. induction sch as [|t sch IH]; intros σ Hok Hpr; [done|].
  rewrite fine_run_cons. apply IH.
  - apply (fine_step_spec t σ Hok).
  - by apply fine_step_pop_ready.
Qed.

(** X3.  The test of the loop and the pop are two operations, and other
    threads may run between them; the pop still never fails.  In every pool
    reached from idle threads, under every scheduler, a thread that is about
    to run [queue.pop(0)] pops an invocation: [IndexError] is never raised,
    because no other thread touches the list in between. *)
Theorem pop_never_fails (progs : gmap tid (list call)) sch st t q cs :
  wf st →
  p_threads (fine_run sch (spawn progs st)) !! t = Some (Thread (At_pop q) cs) →
  ∃ i st',
    list_pop0 t q (p_state (fine_run sch (spawn progs st))) = (Return i, st') ∧
    (call_resume t (At_pop q) (p_state (fine_run sch (spawn progs st)))).1 = At_send q i.
Proof.
  intros Hwf Hth.
  pose proof (spawn_ok progs st Hwf) as Hok0.
  destruct (fine_run_spec sch _ Hok0) as ([Hwf' Hframes] & _).
  assert (Hpr0 : pop_ready (spawn progs st)).
  { intros t1 th q1. unfold spawn. cbn [p_threads]. rewrite lookup_fmap.
    destruct (progs !! t1); simpl; [|done]. by intros [= <-]. }
  pose proof (fine_run_pop_ready sch _ Hok0 Hpr0 t _ q Hth eq_refl) as Hne.
  rewrite (buffer_registered t q) in Hne by (by apply (Hframes t _ q Hth)).
  cbn [call_resume]. unfold list_pop0.
  destruct (list_contents q _) as [|i rest]; [done|]. by eexists _, _.
Qed.

Lemma discarded_by_app t tr1 tr2 :
  discarded_by t (tr1 ++ tr2) = discarded_by t tr1 ++ discarded_by t tr2.
Proof. apply bind_app. Qed.

Lemma discarded_by_events_of t tr : discarded_by t (events_of t tr) = discarded_by t tr.
Proof.
  unfold discarded_by, events_of. induction tr as [|e tr IH]; [done|].
  destruct (decide (ev_tid e = t)) as [He|He].
  - rewrite filter_cons_True by done. by rewrite !bind_cons, IH.
  - rewrite filter_cons_False by done. rewrite bind_cons, IH.
    destruct e; simpl in *; try done. by rewrite decide_False.
Qed.

Lemma discarded_by_pops t buf : discarded_by t (buf ≫= λ i, [Popped t i; Sent t i]) = [].
Proof.
  unfold discarded_by. induction buf as [|i buf IH]; [done|].
  by rewrite bind_cons, bind_app, IH.
Qed.

Lemma discarded_by_appended t (l : list invocation) : discarded_by t (Appended t <$> l) = [].
Proof.
  unfold discarded_by. induction l as [|i l IH]; [done|].
  by rewrite fmap_cons, bind_cons, IH.
Qed.

(** A sequence of transactions on the abstract machine: each one starts and
    ends with an empty buffer. *)
Lemma abs_transactions t txs :
  Forall accepts (committed_tasks txs) →
  ∀ x, c_buffer x = [] →
       c_buffer (foldl (abs_step t false) x (transactions txs)) = [] ∧
       sent_by t (c_events (foldl (abs_step t false) x (transactions txs)))
         = sent_by t (c_events x) ++ committed_tasks txs ∧
       discarded_by t (c_events (foldl (abs_step t false) x (transactions txs)))
         = discarded_by t (c_events x) ++ rolled_back_tasks txs.
Proof.
  induction txs as [|[invs ok] txs IH]; intros Hacc x Hx.
  - simpl. by rewrite !app_nil_r.
  - unfold transactions, committed_tasks, rolled_back_tasks in *.
    rewrite !bind_cons in *. cbn [fst snd] in *.
    rewrite foldl_app, abs_transaction, Hx. cbn [app].
    apply Forall_app in Hacc as [Hinvs Hrest].
    set (y := abs_step t false _ _).
    assert (Hy : c_buffer y = [] ∧
      sent_by t (c_events y) = sent_by t (c_events x) ++ (if ok then invs else []) ∧
      discarded_by t (c_events y)
        = discarded_by t (c_events x) ++ (if ok then [] else invs)).
    { unfold y, abs_step. destruct ok; cbn [settle abs_effect c_buffer c_events c_atomic].
      - destruct (abs_drain_accepts t invs Hinvs) as [-> _]. cbn [fst snd].
        split; [done|].
        rewrite !sent_by_app, !discarded_by_app, sent_by_appended, sent_by_pops,
          discarded_by_appended, discarded_by_pops.
        by rewrite !app_nil_r.
      - cbn [fst snd]. split; [done|].
        rewrite !sent_by_app, !discarded_by_app, sent_by_appended, discarded_by_appended.
        unfold sent_by at 2, discarded_by at 2. simpl.
        by rewrite decide_True, !app_nil_r. }
    destruct Hy as (Hy1 & Hy2 & Hy3).
    destruct (IH Hrest y Hy1) as (IH1 & IH2 & IH3).
    split; [done|]. rewrite IH2, IH3, Hy2, Hy3. by rewrite <- !app_assoc.
Qed.

(** X4.  A thread that runs one transaction after the other, some committed
    and some rolled back, starting with an empty buffer and with eager mode
    off, next to any other threads and under any scheduler, also one that
    switches threads inside calls.  If the transport accepts the tasks of the
    committed transactions, then when the thread has finished it has sent
    exactly the tasks of the committed transactions, transaction after
    transaction and in the order of submission, it has discarded exactly the
    tasks of the rolled back ones, and its buffer is empty: no task crosses
    from one transaction into the next. *)
Theorem transactions_in_sequence t txs (progs : gmap tid (list call)) sch st :
  wf st → eager st = false → buffer t st = [] →
  Forall accepts (committed_tasks txs) →
  progs !! t = Some (transactions txs) →
  finished t (fine_run sch (spawn progs st)) →
  sent_by t (trace (p_state (fine_run sch (spawn progs st))))
    = sent_by t (trace st) ++ committed_tasks txs ∧
  discarded_by t (trace (p_state (fine_run sch (spawn progs st))))
    = discarded_by t (trace st) ++ rolled_back_tasks txs ∧
  buffer t (p_state (fine_run sch (spawn progs st))) = [].
Proof.
  intros Hwf Heag Hbuf Hacc Hp Hfin.
  pose proof (fine_run_view t progs _ sch st Hwf Hp Hfin) as Hv.
  destruct (abs_transactions t txs Hacc (view t st) Hbuf) as (H1 & H2 & H3).
  rewrite Heag in Hv. rewrite <- Hv in H1, H2, H3.
  cbn [view c_buffer c_events] in H1, H2, H3.
  rewrite !sent_by_events_of in H2. rewrite !discarded_by_events_of in H3.
  done.
Qed.

(** Submissions through both entry points, inside an atomic block, on the
    abstract machine. *)
Lemma abs_submission_calls t (subs : list (bool * invocation)) :
  ∀ x, c_atomic x = true →
       c_buffer (foldl (abs_step t false) x (submission_call <$> subs))
         = c_buffer x ++ sent_through_buffer subs ∧
       c_atomic (foldl (abs_step t false) x (submission_call <$> subs)) = true ∧
       ∃ evs, c_events (foldl (abs_step t false) x (submission_call <$> subs))
                = c_events x ++ evs ∧
              sent_by t evs = sent_directly subs.
Proof.
  induction subs as [|[direct [[self a] kw]] subs IH]; intros x Hx.
  - simpl. rewrite app_nil_r. split; [done|]. split; [done|].
    exists []. by rewrite app_nil_r.
  - rewrite fmap_cons. cbn [foldl].
    set (y := abs_step t false x _).
    assert (Hy : c_atomic y = true ∧
      c_buffer y = c_buffer x ++ (if direct then [] else [(self, a, kw)]) ∧
      ∃ ev, c_events y = c_events x ++ [ev] ∧
            sent_by t [ev] = if direct then [(self, a, kw)] else []).
    { unfold y, abs_step, submission_call. cbn [fst snd].
      destruct direct; cbn [abs_effect c_atomic c_buffer c_events fst snd].
      - split; [done|]. split; [by rewrite app_nil_r|]. eexists. split; [done|].
        unfold sent_by. simpl. by rewrite decide_True.
      - rewrite Hx. cbn [andb negb fst snd c_atomic c_buffer c_events].
        split; [done|]. split; [done|]. eexists. by split. }
    destruct Hy as (Hy1 & Hy2 & ev & Hy3 & Hy4).
    destruct (IH y Hy1) as (IH1 & IH2 & evs & IH3 & IH4).
    unfold sent_through_buffer, sent_directly. rewrite !bind_cons. cbn [fst snd].
    fold (sent_through_buffer subs) (sent_directly subs).
    split; [by rewrite IH1, Hy2, <- app_assoc|]. split; [done|].
    exists (ev :: evs). split; [by rewrite IH3, Hy3, <- app_assoc|].
    change (ev :: evs) with ([ev] ++ evs). by rewrite sent_by_app, Hy4, IH4.
Qed.

Lemma abs_drain_sent t buf :
  sent_by t (abs_drain t buf).1 ++ (abs_drain t buf).2 = buf ∧
  discarded_by t (abs_drain t buf).1 = [].
Proof.
  unfold sent_by, discarded_by.
  induction buf as [|i rest [IH1 IH2]]; [done|].
  cbn [abs_drain]. destruct (Task_apply_async _ _ _); cbn [fst snd];
    rewrite !bind_cons; cbn [app]; rewrite decide_True by done.
  - split; [|done]. cbn [app]. by rewrite IH1.
  - done.
Qed.

(** X5.  Both entry points in one transaction.  A thread in an atomic block,
    with eager mode off and an empty buffer, submits tasks, some through
    [original_apply_async] and some through [apply_async], and then receives
    post_commit, while other threads do what they like.  The tasks submitted
    through [original_apply_async] are sent first, in their order; the tasks
    submitted through [apply_async] come after them, in their order, as far
    as the drain gets, and those it does not reach are still in the buffer:
    a deferred task is overtaken by every direct one submitted after it.  If
    the transport accepts every task submitted through [apply_async], all of
    them are sent and the buffer is empty. *)
Theorem direct_submissions_overtake t (subs : list (bool * invocation)) s st :
  wf st → t ∈ in_atomic_block st → eager st = false → buffer t st = [] →
  calls_of t s = (submission_call <$> subs) ++ [Signal_post_commit] →
  ∃ reached kept : list invocation,
    sent_through_buffer subs = reached ++ kept ∧
    sent_by t (trace (run s st))
      = sent_by t (trace st) ++ sent_directly subs ++ reached ∧
    buffer t (run s st) = kept ∧
    (Forall accepts (sent_through_buffer subs) → kept = []).
Proof.
  intros Hwf Hin Heag Hbuf Hcalls.
  pose proof (run_view t s st Hwf) as Hv.
  rewrite Heag, Hcalls, foldl_app in Hv. cbn [foldl] in Hv.
  destruct (abs_submission_calls t subs (view t st)) as (H1 & H2 & evs & H3 & H4).
  { cbn [view c_atomic]. by apply bool_decide_eq_true_2. }
  unfold abs_step in Hv at 1. cbn [abs_effect] in Hv.
  rewrite H1, H3 in Hv. cbn [view c_buffer c_events] in Hv. rewrite Hbuf in Hv.
  cbn [app] in Hv.
  injection Hv as Hb _ He.
  destruct (abs_drain_sent t (sent_through_buffer subs)) as [Hsplit _].
  exists (sent_by t (abs_drain t (sent_through_buffer subs)).1),
         (abs_drain t (sent_through_buffer subs)).2.
  split; [done|]. split; [|split; [done|]].
  - rewrite <- (sent_by_events_of t (trace (run s st))), He.
    by rewrite !sent_by_app, sent_by_events_of, H4, <- app_assoc.
  - intros Hacc. by destruct (abs_drain_accepts t _ Hacc) as [-> _].
Qed.

(** X6.  A failed commit followed by a rollback.  When [_send_tasks] raises
    on an invocation, the invocations queued behind it are still in the
    buffer; if the next signal the thread receives is post_rollback,
    [_discard_tasks] drops them.  They are then never sent, although the
    transaction that submitted them had committed. *)
Theorem failed_commit_then_rollback t pre (x : invocation) post e st :
  wf st →
  buffer t st = pre ++ x :: post →
  Forall accepts pre →
  Task_apply_async x.1.1 x.1.2 x.2 = inr e →
  ∃ st1 st2,
    _send_tasks t st = (Raise (TransportError e), st1) ∧
    _discard_tasks t st1 = (Return tt, st2) ∧
    sent_by t (trace st2) = sent_by t (trace st) ++ pre ++ [x] ∧
    discarded_by t (trace st2) = discarded_by t (trace st) ++ post ∧
    buffer t st2 = [] ∧
    ∀ s, Forall (λ c, ¬ submits c) (calls_of t s) →
         sent_by t (trace (run s st2)) = sent_by t (trace st) ++ pre ++ [x].
Proof.
  intros Hwf Hbuf Hpre Hx.
  destruct (send_tasks_spec t st Hwf) as (st1 & Heq1 & Hwf1 & Hbuf1 & Htr1 & _).
  rewrite Hbuf in Heq1, Hbuf1, Htr1.
  destruct (abs_drain_raises t pre x post e Hpre Hx) as [Hd Ho].
  rewrite Ho in Heq1. rewrite Hd in Hbuf1, Htr1. cbn [fst snd] in Hbuf1, Htr1.
  destruct (discard_tasks_spec t st1 Hwf1) as (st2 & Heq2 & Hwf2 & Hbuf2 & Htr2 & _).
  rewrite Hbuf1 in Htr2.
  assert (Hsent : sent_by t (trace st2) = sent_by t (trace st) ++ pre ++ [x]).
  { rewrite Htr2, Htr1, !sent_by_app, sent_by_pops. unfold sent_by at 3. simpl.
    by rewrite app_nil_r. }
  exists st1, st2. split; [done|]. split; [done|]. split; [done|].
  split; [|split; [done|]].
  - rewrite Htr2, Htr1, !discarded_by_app, discarded_by_pops.
    unfold discarded_by at 3. simpl. by rewrite decide_True, !app_nil_r.
  - intros s Hs. destruct (quiet_thread t s st2 Hwf2 Hbuf2 Hs) as [-> _]. done.
Qed.

(** X7.  Both handlers work on the list in place.  The list object
    registered for a thread is still the one registered after
    [_discard_tasks] and after [_send_tasks], and no handler changes which
    list is registered for any thread.  [_discard_tasks] leaves that very
    object empty, and so does a [_send_tasks] whose transport calls are all
    accepted.  So whoever holds the list returned by an earlier
    [_get_task_queue()] sees it drained. *)
Theorem handlers_drain_in_place t q st :
  wf st → task_queue t st = Some q →
  (∃ st', _discard_tasks t st = (Return tt, st') ∧
          task_queue t st' = Some q ∧
          heap st' !! q = Some [] ∧
          ∀ t' q', task_queue t' st = Some q' → task_queue t' st' = Some q') ∧
  task_queue t (_send_tasks t st).2 = Some q ∧
  (Forall accepts (buffer t st) → heap (_send_tasks t st).2 !! q = Some []) ∧
  (∀ t' q', task_queue t' st = Some q' → task_queue t' (_send_tasks t st).2 = Some q').
Proof.
  intros Hwf Hq. split.
  - destruct (discard_tasks_spec t st Hwf) as (st' & Heq & Hwf' & Hbuf & _ & _ & Hreg & _).
    exists st'. split; [done|]. split; [by apply Hreg|]. split; [|done].
    rewrite (heap_registered t q st') by (done || by apply Hreg). by rewrite Hbuf.
  - destruct (send_tasks_spec t st Hwf) as (st' & Heq & Hwf' & Hbuf & _ & _ & Hreg & _).
    rewrite Heq. cbn [snd]. split; [by apply Hreg|]. split; [|done].
    intros Hacc. rewrite (heap_registered t q st') by (done || by apply Hreg).
    rewrite Hbuf. by destruct (abs_drain_accepts t _ Hacc) as [-> _].
Qed.

(** X8.  The lists stay apart.  In every pool reached from idle threads in a
    well-formed state, under every scheduler, no list is registered for two
    threads, and the list a call in progress holds in its variable [queue] is
    the list registered for the thread that makes the call. *)
Theorem lists_never_shared (progs : gmap tid (list call)) sch st :
  wf st →
  (∀ t1 t2 q,
     task_queue t1 (p_state (fine_run sch (spawn progs st))) = Some q →
     task_queue t2 (p_state (fine_run sch (spawn progs st))) = Some q →
     t1 = t2) ∧
  (∀ t th q,
     p_threads (fine_run sch (spawn progs st)) !! t = Some th →
     frame_queue (th_frame th) = Some q →
     task_queue t (p_state (fine_run sch (spawn progs st))) = Some q ∧
     ∀ t', task_queue t' (p_state (fine_run sch (spawn progs st))) = Some q → t' = t).
Proof.
  intros Hwf.
  destruct (fine_run_spec sch _ (spawn_ok progs st Hwf)) as ([Hwf' Hframes] & _).
  split; [apply (wf_sep _ Hwf')|].
  intros t th q Hth Hf. pose proof (Hframes t th q Hth Hf) as Hq.
  split; [done|]. intros t' Hq'. by apply (wf_sep _ Hwf' t' t q).
Qed.

(** One call on the abstract machine: what it submits is added to what is
    sent, discarded or buffered, and nothing else changes the sum. *)
Lemma abs_step_conserves t eag x c :
  sent_by t (c_events (abs_step t eag x c))
    ++ discarded_by t (c_events (abs_step t eag x c))
    ++ c_buffer (abs_step t eag x c)
  ≡ₚ (sent_by t (c_events x) ++ discarded_by t (c_events x) ++ c_buffer x)
     ++ submitted [c].
Proof.
  unfold abs_step. cbn [c_events c_buffer].
  rewrite sent_by_app, discarded_by_app.
  assert (Hsent : ∀ i, sent_by t [Sent t i] = [i] ∧ discarded_by t [Sent t i] = []).
  { intros i. unfold sent_by, discarded_by. simpl. by rewrite decide_True. }
  assert (Happ : ∀ i, sent_by t [Appended t i] = [] ∧ discarded_by t [Appended t i] = []).
  { intros i. by unfold sent_by, discarded_by. }
  assert (Hclr : ∀ l : list invocation,
    sent_by t [Cleared t l] = [] ∧ discarded_by t [Cleared t l] = l).
  { intros l. unfold sent_by, discarded_by. simpl. by rewrite decide_True, app_nil_r. }
  assert (Hdirect : ∀ (S D B : list invocation) i,
    (S ++ [i]) ++ (D ++ []) ++ B ≡ₚ (S ++ D ++ B) ++ [i]).
  { intros S D B i. rewrite app_nil_r, <- !app_assoc. f_equiv.
    rewrite (app_assoc D B [i]). apply Permutation_app_comm. }
  destruct c as [self a kw|self a kw| | | |b]; cbn [abs_effect].
  - change (submitted [Call_apply_async self a kw]) with [(self, a, kw)].
    destruct (c_atomic x && negb eag); cbn [fst snd].
    + destruct (Happ (self, a, kw)) as [-> ->]. by rewrite !app_nil_r, <- !app_assoc.
    + destruct (Hsent (self, a, kw)) as [-> ->]. apply Hdirect.
  - change (submitted [Call_original_apply_async self a kw]) with [(self, a, kw)].
    cbn [fst snd]. destruct (Hsent (self, a, kw)) as [-> ->]. apply Hdirect.
  - change (submitted [Signal_post_commit]) with (@nil invocation).
    destruct (abs_drain_sent t (c_buffer x)) as [Hs Hd]. rewrite Hd.
    rewrite !app_nil_r, <- app_assoc. f_equiv.
    by rewrite Permutation_app_swap_app, Hs.
  - change (submitted [Signal_post_rollback]) with (@nil invocation).
    cbn [fst snd]. destruct (Hclr (c_buffer x)) as [-> ->]. by rewrite !app_nil_r.
  - change (submitted [Call_get_task_queue]) with (@nil invocation).
    cbn [fst snd]. by rewrite !app_nil_r.
  - change (submitted [Host_set_in_atomic_block b]) with (@nil invocation).
    cbn [fst snd]. by rewrite !app_nil_r.
Qed.

Lemma abs_conserves t eag cs :
  ∀ x, sent_by t (c_events (foldl (abs_step t eag) x cs))
         ++ discarded_by t (c_events (foldl (abs_step t eag) x cs))
         ++ c_buffer (foldl (abs_step t eag) x cs)
       ≡ₚ (sent_by t (c_events x) ++ discarded_by t (c_events x) ++ c_buffer x)
          ++ submitted cs.
Proof.
  induction cs as [|c cs IH]; intros x.
  - simpl. by rewrite app_nil_r.
  - cbn [foldl]. rewrite IH, abs_step_conserves, <- app_assoc.
    unfold submitted. by rewrite <- bind_app.
Qed.

Lemma run_conserves s eag t :
  sent_by t (trace (run s (init eag)))
    ++ discarded_by t (trace (run s (init eag)))
    ++ buffer t (run s (init eag))
  ≡ₚ submitted (calls_of t s).
Proof.
  pose proof (abs_conserves t (eager (init eag : state)) (calls_of t s)
                (view t (init eag))) as Hc.
  rewrite <- run_view in Hc by apply wf_init.
  cbn [view c_events c_buffer] in Hc.
  by rewrite !sent_by_events_of, !discarded_by_events_of in Hc.
Qed.

Lemma submitted_quiet cs : Forall (λ c, ¬ submits c) cs → submitted cs = [].
Proof.
  unfold submitted. induction 1 as [|c cs Hc _ IH]; [done|].
  rewrite bind_cons, IH. destruct c; simpl in *; try done; by destruct Hc.
Qed.

Lemma calls_of_app t s1 s2 : calls_of t (s1 ++ s2) = calls_of t s1 ++ calls_of t s2.
Proof. apply omap_app. Qed.

(** C7, as amended.  Start from a fresh interpreter and let the threads make
    any calls in any order; then thread [t] receives the signal that ends
    its transaction, post_rollback or post_commit, and submits nothing
    afterwards, while the other threads go on as they like.  If the signal
    is post_rollback, or if it is post_commit and the transport accepts
    every invocation then in the buffer of [t], the handler has emptied the
    buffer, and the books of [t] balance:
    - the invocations ever appended to the buffer are, in the same order,
      the ones that ever left it;
    - each of them was either popped by [_send_tasks] and handed to the
      transport in the very next step, or dropped by [_discard_tasks], so
      the invocations appended are, up to order, those dispatched from the
      buffer together with those discarded, and so are their numbers;
    - no invocation was dispatched a second time: all transport calls of
      [t], taken with the invocations appended, are the dispatches from the
      buffer taken with all the submissions of [t], so a transport call of
      [t] is the dispatch of one buffered invocation or one submission that
      was never buffered.
    An invocation counts as dispatched when it is handed to the transport. *)
Theorem buffer_accounting s s' (eag : option bool) t (signal : call) :
  let st : state := run s (init eag) in
  let st' : state := run s' (exec t signal st) in
  let tr : list event := trace st' in
  signal = Signal_post_rollback
  ∨ signal = Signal_post_commit ∧ Forall accepts (buffer t st) →
  Forall (λ c, ¬ submits c) (calls_of t s') →
  buffer t st' = [] ∧
  appended_by t tr = removed_by t tr ∧
  dispatched_from_buffer t tr = popped_by t tr ∧
  appended_by t tr ≡ₚ dispatched_from_buffer t tr ++ discarded_by t tr ∧
  length (appended_by t tr)
    = length (dispatched_from_buffer t tr) + length (discarded_by t tr) ∧
  sent_by t tr ++ appended_by t tr
    ≡ₚ dispatched_from_buffer t tr ++ submitted (calls_of t s) ∧
  length (sent_by t tr) + length (appended_by t tr)
    = length (dispatched_from_buffer t tr) + length (submitted (calls_of t s)).
Proof.
  intros st st' tr Hsig Hquiet.
  assert (Hwf : wf st) by apply run_wf, wf_init.
  assert (Hbuf1 : buffer t (exec t signal st) = []).
  { destruct (exec_spec t signal st Hwf) as (_ & -> & _).
    destruct Hsig as [->|[-> Hacc]]; cbn [abs_effect]; [done|].
    by destruct (abs_drain_accepts t _ Hacc) as [-> _]. }
  assert (Hbuf : buffer t st' = []).
  { by apply quiet_thread; [apply exec_wf| |]. }
  assert (Hall : st' = run (s ++ (t, signal) :: s') (init eag)).
  { by rewrite run_app, run_cons. }
  assert (Hsub : submitted (calls_of t (s ++ (t, signal) :: s'))
                 = submitted (calls_of t s)).
  { change ((t, signal) :: s') with ([(t, signal)] ++ s').
    rewrite !calls_of_app. unfold submitted at 1. rewrite !bind_app.
    fold (submitted (calls_of t s)) (submitted (calls_of t s'))
         (submitted (calls_of t [(t, signal)])).
    rewrite (submitted_quiet _ Hquiet), app_nil_r.
    unfold calls_of at 2. cbn [omap list_omap fst snd].
    rewrite decide_True by done.
    by destruct Hsig as [->|[-> _]]; rewrite app_nil_r. }
  pose proof (accounting_invariant (s ++ (t, signal) :: s') eag t) as Hinv.
  pose proof (run_conserves (s ++ (t, signal) :: s') eag t) as Hcons.
  rewrite <- Hall in Hinv, Hcons. fold tr in Hinv, Hcons.
  rewrite Hbuf, app_nil_r in Hinv, Hcons. rewrite Hsub in Hcons.
  assert (Hp : dispatched_from_buffer t tr = popped_by t tr).
  { unfold tr. rewrite Hall.
    apply dispatched_from_buffer_paired, run_paired; [apply wf_init|constructor]. }
  assert (Happ : appended_by t tr ≡ₚ dispatched_from_buffer t tr ++ discarded_by t tr).
  { by rewrite Hinv, Hp, removed_by_perm. }
  assert (Hsent : sent_by t tr ++ appended_by t tr
                  ≡ₚ dispatched_from_buffer t tr ++ submitted (calls_of t s)).
  { by rewrite Happ, <- Hcons, Permutation_app_swap_app. }
  split; [done|]. split; [done|]. split; [done|]. split; [done|].
  split; [by rewrite Hinv, Hp, removed_by_length|]. split; [done|].
  apply Permutation_length in Hsent. by rewrite !length_app in Hsent.
Qed.

(** X9.  Nothing is lost, invented or sent twice.  After any schedule of
    calls from a fresh interpreter, whatever the configuration and whatever
    the transport raises, the invocations a thread has submitted, through
    either entry point, are exactly (as a multiset) the ones it has handed
    to the transport, the ones it has discarded and the ones still in its
    buffer.  In particular a thread never sends a task it did not submit,
    nor one task more often than it submitted it. *)
Theorem every_submission_accounted s (eag : option bool) t :
  submitted (calls_of t s)
  ≡ₚ sent_by t (trace (run s (init eag)))
     ++ discarded_by t (trace (run s (init eag)))
     ++ buffer t (run s (init eag)).
Proof.
  pose proof (abs_conserves t (eager (init eag : state)) (calls_of t s)
                (view t (init eag))) as Hc.
  rewrite <- run_view in Hc by apply wf_init.
  cbn [view c_events c_buffer] in Hc.
  rewrite !sent_by_events_of, !discarded_by_events_of in Hc.
  by rewrite Hc.
Qed.

Lemma popped_sublist_removed t tr : popped_by t tr `sublist_of` removed_by t tr.
Proof.
  unfold popped_by, removed_by. induction tr as [|e tr IH]; [done|].
  rewrite !bind_cons. apply sublist_app; [|done].
  destruct e; simpl; try destruct (decide _); (reflexivity || apply sublist_nil_l).
Qed.

(** X10.  Deferred tasks are never reordered.  After any schedule of calls
    from a fresh interpreter, also when drains fail and are taken up again,
    the invocations a thread has sent out of its buffer are a subsequence of
    the invocations appended to it: if one task was buffered before another
    and both were sent from the buffer, the first was sent first. *)
Theorem deferred_tasks_keep_order s (eag : option bool) t :
  dispatched_from_buffer t (trace (run s (init eag)))
    `sublist_of` appended_by t (trace (run s (init eag))).
Proof.
  rewrite dispatched_from_buffer_paired
    by (apply run_paired; [apply wf_init|constructor]).
  rewrite accounting_invariant. apply sublist_inserts_r, popped_sublist_removed.
Qed.

(** Outside an atomic block the abstract machine of a thread whose buffer is
    empty never buffers, whatever the configuration. *)
Lemma abs_unmanaged t eag cs :
  Forall (λ c, c ≠ Host_set_in_atomic_block true) cs →
  ∀ x, c_buffer x = [] → c_atomic x = false →
       c_buffer (foldl (abs_step t eag) x cs) = [] ∧
       sent_by t (c_events (foldl (abs_step t eag) x cs))
         = sent_by t (c_events x) ++ submitted cs ∧
       appended_by t (c_events (foldl (abs_step t eag) x cs))
         = appended_by t (c_events x).
Proof.
  induction 1 as [|c cs Hc _ IH]; intros x Hb Ha.
  - simpl. by rewrite app_nil_r.
  - cbn [foldl].
    assert (Hy : c_buffer (abs_step t eag x c) = [] ∧
      c_atomic (abs_step t eag x c) = false ∧
      ∃ evs, c_events (abs_step t eag x c) = c_events x ++ evs ∧
             sent_by t evs = submitted [c] ∧ appended_by t evs = []).
    { unfold abs_step. rewrite Hb, Ha.
      destruct c as [self a kw|self a kw| | | |[]]; try done;
        cbn [abs_effect abs_drain andb c_buffer c_atomic c_events fst snd];
        (split; [done|]); (split; [done|]); eexists; (split; [reflexivity|]);
        unfold sent_by, appended_by, submitted; simpl; by rewrite ?decide_True. }
    destruct Hy as (Hb' & Ha' & evs & Hev & Hs & Happ).
    destruct (IH _ Hb' Ha') as (IH1 & IH2 & IH3).
    split; [done|]. rewrite IH2, IH3, Hev, sent_by_app, appended_by_app, Hs, Happ.
    split; [|by rewrite app_nil_r].
    rewrite <- app_assoc. f_equal. unfold submitted. by rewrite <- bind_app.
Qed.

(** X11.  Without a transaction nothing is deferred.  From a fresh
    interpreter, whatever the configuration and whatever the other threads
    do, a thread whose connection never enters an atomic block has an empty
    buffer at all times, appends nothing, and hands every invocation it
    submits to the transport at once, in the order of submission. *)
Theorem no_transaction_never_defers s (eag : option bool) t :
  Forall (λ c, c ≠ Host_set_in_atomic_block true) (calls_of t s) →
  buffer t (run s (init eag)) = [] ∧
  appended_by t (trace (run s (init eag))) = [] ∧
  sent_by t (trace (run s (init eag))) = submitted (calls_of t s).
Proof.
  intros Hs.
  pose proof (run_view t s (init eag) (wf_init _)) as Hv.
  destruct (abs_unmanaged t (eager (init eag : state)) _ Hs (view t (init eag)))
    as (H1 & H2 & H3); [done|by apply bool_decide_eq_false_2, not_elem_of_empty|].
  rewrite <- Hv in H1, H2, H3. cbn [view c_buffer c_events] in H1, H2, H3.
  rewrite sent_by_events_of in H2. rewrite appended_by_events_of in H3.
  done.
Qed.

End Properties.

(** * Concrete runs *)

Lemma wf_demo_open : wf demo_open.
Proof. apply run_wf, wf_init. Qed.

Lemma in_atomic_demo_open : 0 ∈ in_atomic_block demo_open.
Proof. apply (bool_decide_unpack _). vm_compute. exact I. Qed.

Lemma accepts_T1 : accepts T1.
Proof. by eexists. Qed.

Lemma accepts_T2 : accepts T2.
Proof. by eexists. Qed.

Lemma accepts_T3 : accepts T3.
Proof. by eexists. Qed.

(** C1 on a run: [T1], [T2], [T3] submitted in an atomic block, then commit. *)
Lemma commit_sends_all_in_order_witness :
  ∃ st2 : demo_state,
    _send_tasks 0 (run (submissions 0 [T1; T2; T3]) demo_open) = (Return tt, st2) ∧
    sent_log (trace st2) = [(0, T1); (0, T2); (0, T3)] ∧
    buffer 0 st2 = [].
Proof.
  destruct (commit_sends_all_in_order 0 [T1; T2; T3] demo_open)
    as (st2 & Heq & _ & _ & Hlog & Hbuf).
  - exact wf_demo_open.
  - exact in_atomic_demo_open.
  - reflexivity.
  - repeat constructor; by eexists.
  - exists st2. split; [exact Heq|]. split; [exact Hlog|exact Hbuf].
Defined.

(** C1 as stated fails when the transport raises: [Bad] and [T1] are
    submitted in an atomic block of thread 0 with eager mode off, and the
    post_commit handler runs.  It raises on [Bad]; [T1] is never handed to
    the transport, and the buffer is not empty afterwards. *)
Lemma commit_with_refused_task :
  0 ∈ in_atomic_block demo_open ∧ eager demo_open = false ∧
  (_send_tasks 0 (run (submissions 0 [Bad; T1]) demo_open)).1
    = Raise (TransportError "no route") ∧
  sent_log (trace (_send_tasks 0 (run (submissions 0 [Bad; T1]) demo_open)).2)
    = [(0, Bad)] ∧
  buffer 0 (_send_tasks 0 (run (submissions 0 [Bad; T1]) demo_open)).2 = [T1] ∧
  ¬ (sent_log (trace (_send_tasks 0 (run (submissions 0 [Bad; T1]) demo_open)).2)
       = [(0, Bad); (0, T1)] ∧
     buffer 0 (_send_tasks 0 (run (submissions 0 [Bad; T1]) demo_open)).2 = []).
Proof.
  split; [exact in_atomic_demo_open|].
  repeat split; try (vm_compute; reflexivity).
  intros [_ Hbuf]. vm_compute in Hbuf. discriminate Hbuf.
Qed.

(** C2 on a run: [T1], [T2] submitted in an atomic block, then rollback, then
    a commit signal and a second rollback signal on the same thread. *)
Lemma rollback_discards_all_witness :
  ∃ st2 : demo_state,
    _discard_tasks (exn:=string) 0 (run (submissions 0 [T1; T2]) demo_open)
      = (Return tt, st2) ∧
    sent_log (trace st2) = [] ∧
    buffer 0 st2 = [] ∧
    sent_by 0 (trace (run [(0, Signal_post_commit); (0, Signal_post_rollback)] st2)) = [].
Proof.
  destruct (rollback_discards_all 0 [T1; T2] demo_open)
    as (st2 & Heq & _ & Hlog & Hbuf & Hever).
  - exact wf_demo_open.
  - exact in_atomic_demo_open.
  - reflexivity.
  - exists st2. split; [exact Heq|]. split; [exact Hlog|]. split; [exact Hbuf|].
    apply (Hever [(0, Signal_post_commit); (0, Signal_post_rollback)]).
    repeat constructor; intros [].
Defined.

(** C3 on a run: in the atomic block of thread 0 the call is buffered and
    returns [None]; in thread 1, which is in no atomic block, it goes to the
    transport and returns its result. *)
Lemma apply_async_defers_or_sends_witness :
  (∃ st' : demo_state,
     apply_async 0 "T1" [1] [] demo_open = (Return None, st') ∧
     buffer 0 st' = [T1] ∧ sent_log (trace st') = []) ∧
  apply_async 1 "T1" [1] [] demo_open = (Return (Some 1), log (Sent 1 T1) demo_open).
Proof.
  destruct (apply_async_defers_or_sends 0 "T1" [1] [] demo_open wf_demo_open) as [_ Hdefer].
  destruct (apply_async_defers_or_sends 1 "T1" [1] [] demo_open wf_demo_open) as [Hnow _].
  split.
  - destruct Hdefer as (st' & Heq & Hbuf & _ & Hlog & _).
    + split; [exact in_atomic_demo_open|reflexivity].
    + exists st'. split; [exact Heq|]. split; [exact Hbuf|exact Hlog].
  - apply Hnow. left. apply (bool_decide_unpack _). vm_compute. exact I.
Defined.

(** C4 as stated fails: with [T1], [Bad], [T2], [T3] buffered, the drain
    raises on [Bad]; [T2] and [T3], which the transport would accept, are not
    sent and stay in the buffer. *)
Lemma send_tasks_abandons_siblings :
  accepts T2 ∧ accepts T3 ∧
  (_send_tasks 0 (run (submissions 0 [T1; Bad; T2; T3]) demo_open)).1
    = Raise (TransportError "no route") ∧
  sent_by 0 (trace (_send_tasks 0 (run (submissions 0 [T1; Bad; T2; T3]) demo_open)).2)
    = [T1; Bad] ∧
  buffer 0 (_send_tasks 0 (run (submissions 0 [T1; Bad; T2; T3]) demo_open)).2
    = [T2; T3] ∧
  ¬ (sent_by 0 (trace (_send_tasks 0 (run (submissions 0 [T1; Bad; T2; T3]) demo_open)).2)
       = [T1; Bad; T2; T3]).
Proof.
  split; [exact accepts_T2|]. split; [exact accepts_T3|].
  repeat split; try (vm_compute; reflexivity).
  intros Hsent. vm_compute in Hsent. discriminate Hsent.
Qed.

(** C4, as amended, on the same run. *)
Lemma send_tasks_stops_at_first_failure_witness :
  ∃ st' : demo_state,
    _send_tasks 0 (run (submissions 0 [T1; Bad; T2; T3]) demo_open)
      = (Raise (TransportError "no route"), st') ∧
    sent_log (trace st') = [(0, T1); (0, Bad)] ∧
    sent_by 0 (trace st') = [T1; Bad] ∧
    buffer 0 st' = [T2; T3].
Proof.
  destruct (send_tasks_stops_at_first_failure 0 [T1] Bad [T2; T3] "no route"
              (run (submissions 0 [T1; Bad; T2; T3]) demo_open))
    as (st' & Heq & Hlog & Hsent & Hbuf).
  - apply run_wf, wf_demo_open.
  - vm_compute. reflexivity.
  - repeat constructor. exact accepts_T1.
  - reflexivity.
  - exists st'. split; [exact Heq|]. split; [exact Hlog|].
    split; [exact Hsent|exact Hbuf].
Defined.

(** C6 on a run: both handlers on a thread that never submitted anything. *)
Lemma drain_empty_noop_witness :
  (∃ st' : demo_state,
     _discard_tasks (exn:=string) 0 (init None) = (Return tt, st') ∧
     sent_log (trace st') = [] ∧ buffer 0 st' = []) ∧
  (∃ st' : demo_state,
     _send_tasks 0 (init None) = (Return tt, st') ∧
     trace st' = [] ∧ buffer 0 st' = []).
Proof.
  destruct (drain_empty_noop (exn:=string) 0 (init None) (wf_init None) eq_refl)
    as [(st1 & Heq1 & _ & Hlog1 & Hbuf1 & _) (st2 & Heq2 & Htr2 & Hbuf2 & _)].
  split.
  - exists st1. split; [exact Heq1|]. split; [exact Hlog1|exact (Hbuf1 0)].
  - exists st2. split; [exact Heq2|]. split; [exact Htr2|exact (Hbuf2 0)].
Defined.

(** C7 as stated fails when the transport raises: thread 0 submits [Bad]
    and [T1] in a transaction and receives post_commit.  The terminal event
    has run, two invocations were appended, one was handed to the
    transport, none was discarded, and [T1] is still in the buffer. *)
Lemma accounting_with_refused_task :
  calls_of 0 demo_schedule_refused = transaction [Bad; T1] Signal_post_commit ∧
  appended_by 0 (trace (run demo_schedule_refused (init None))) = [Bad; T1] ∧
  sent_by 0 (trace (run demo_schedule_refused (init None))) = [Bad] ∧
  dispatched_from_buffer 0 (trace (run demo_schedule_refused (init None))) = [Bad] ∧
  discarded_by 0 (trace (run demo_schedule_refused (init None))) = [] ∧
  buffer 0 (run demo_schedule_refused (init None)) = [T1] ∧
  length (appended_by 0 (trace (run demo_schedule_refused (init None))))
    ≠ length (dispatched_from_buffer 0 (trace (run demo_schedule_refused (init None))))
      + length (discarded_by 0 (trace (run demo_schedule_refused (init None)))).
Proof.
  repeat split; try (vm_compute; reflexivity).
  intros Hlen. vm_compute in Hlen. discriminate Hlen.
Qed.

(** C7, as amended, on a run: after [demo_schedule_resolving] thread 0
    receives post_commit with [T1] and [T2] buffered, and thread 2 then
    sends [T3] directly.  Thread 0 had also submitted nothing else: two
    invocations appended, two dispatched, none discarded, two transport
    calls. *)
Lemma buffer_accounting_witness :
  buffer 0 (run [(2, submit T3)]
              (exec 0 Signal_post_commit (run demo_schedule_resolving (init None)))) = [] ∧
  appended_by 0 (trace (run [(2, submit T3)]
     (exec 0 Signal_post_commit (run demo_schedule_resolving (init None))))) = [T1; T2] ∧
  sent_by 0 (trace (run [(2, submit T3)]
     (exec 0 Signal_post_commit (run demo_schedule_resolving (init None))))) = [T1; T2] ∧
  length (appended_by 0 (trace (run [(2, submit T3)]
     (exec 0 Signal_post_commit (run demo_schedule_resolving (init None))))))
    = length (dispatched_from_buffer 0 (trace (run [(2, submit T3)]
        (exec 0 Signal_post_commit (run demo_schedule_resolving (init None))))))
      + length (discarded_by 0 (trace (run [(2, submit T3)]
        (exec 0 Signal_post_commit (run demo_schedule_resolving (init None)))))) ∧
  length (sent_by 0 (trace (run [(2, submit T3)]
     (exec 0 Signal_post_commit (run demo_schedule_resolving (init None))))))
  + length (appended_by 0 (trace (run [(2, submit T3)]
     (exec 0 Signal_post_commit (run demo_schedule_resolving (init None))))))
    = length (dispatched_from_buffer 0 (trace (run [(2, submit T3)]
        (exec 0 Signal_post_commit (run demo_schedule_resolving (init None))))))
      + length (submitted (calls_of 0 demo_schedule_resolving)).
Proof.
  destruct (buffer_accounting demo_schedule_resolving [(2, submit T3)] None 0
              Signal_post_commit)
    as (Hbuf & _ & _ & _ & Hlen & _ & Hsent).
  - right. split; [reflexivity|].
    change (Forall accepts [T1; T2]).
    repeat constructor; [exact accepts_T1|exact accepts_T2].
  - constructor.
  - split; [exact Hbuf|]. split; [vm_compute; reflexivity|].
    split; [vm_compute; reflexivity|]. split; [exact Hlen|exact Hsent].
Defined.

(** C8 on a run: the first call of thread 0 in a fresh interpreter, and the
    call after [demo_schedule] has run. *)
Lemma get_task_queue_unregistered_witness :
  ∃ (q : loc) (st' st'' : demo_state),
    _get_task_queue (exn:=string) 0 (init None) = (Return q, st') ∧
    heap st' !! q = Some [] ∧
    _get_task_queue (exn:=string) 0 (run demo_schedule st') = (Return q, st'').
Proof.
  destruct (get_task_queue_unregistered (exn:=string) 0 (init None) (wf_init None) eq_refl)
    as (_ & _ & q & st' & Heq & _ & Hempty & _ & _ & Hsame).
  destruct (Hsame demo_schedule) as (st'' & Heq').
  exists q, st', st''. split; [exact Heq|]. split; [exact Hempty|exact Heq'].
Defined.

(** C9 as stated fails when the transport raises: with
    [demo_programs_refused] thread 0 submits two tasks and commits, thread 1
    submits two and rolls back; both finish, and thread 0 has sent one task,
    not two. *)
Lemma isolation_with_refused_task :
  finished 0 (fine_run demo_scheduler (spawn demo_programs_refused (init None))) ∧
  finished 1 (fine_run demo_scheduler (spawn demo_programs_refused (init None))) ∧
  sent_by 0 (trace (p_state (fine_run demo_scheduler
                       (spawn demo_programs_refused (init None))))) = [Bad] ∧
  sent_by 1 (trace (p_state (fine_run demo_scheduler
                       (spawn demo_programs_refused (init None))))) = [] ∧
  buffer 0 (p_state (fine_run demo_scheduler
              (spawn demo_programs_refused (init None)))) = [T1] ∧
  length (sent_by 0 (trace (p_state (fine_run demo_scheduler
                               (spawn demo_programs_refused (init None)))))) ≠ 2.
Proof.
  repeat split; try (vm_compute; reflexivity).
  intros Hlen. vm_compute in Hlen. discriminate Hlen.
Qed.

(** C9, as amended, on [demo_programs] under [demo_scheduler]. *)
Lemma buffers_isolated_witness :
  sent_by 0 (trace (p_state (fine_run demo_scheduler (spawn demo_programs (init None)))))
    = [T1; T2] ∧
  sent_by 1 (trace (p_state (fine_run demo_scheduler (spawn demo_programs (init None)))))
    = [] ∧
  buffer 0 (p_state (fine_run demo_scheduler (spawn demo_programs (init None)))) = [] ∧
  buffer 1 (p_state (fine_run demo_scheduler (spawn demo_programs (init None)))) = [].
Proof.
  apply (buffers_isolated 0 1 [T1; T2] [T3; Bad] demo_programs demo_scheduler (init None)).
  - apply wf_init.
  - reflexivity.
  - reflexivity.
  - reflexivity.
  - repeat constructor; [exact accepts_T1|exact accepts_T2].
  - vm_compute. reflexivity.
  - vm_compute. reflexivity.
  - vm_compute. reflexivity.
  - vm_compute. reflexivity.
Defined.

(** C10 on a run: [T1], [Bad], [T2] buffered; the drain raises on [Bad]. *)
Lemma send_tasks_pops_before_sending_witness :
  ∃ st' : demo_state,
    _send_tasks 0 (run (submissions 0 [T1; Bad; T2]) demo_open)
      = (Raise (TransportError "no route"), st') ∧
    trace st' = trace (run (submissions 0 [T1; Bad; T2]) demo_open)
                ++ [Popped 0 T1; Sent 0 T1; Popped 0 Bad; Sent 0 Bad] ∧
    buffer 0 st' = [T2].
Proof.
  destruct (send_tasks_pops_before_sending 0 [T1] Bad [T2] "no route"
              (run (submissions 0 [T1; Bad; T2]) demo_open))
    as (_ & st' & Heq & Htr & _ & Hbuf).
  - apply run_wf, wf_demo_open.
  - vm_compute. reflexivity.
  - repeat constructor. exact accepts_T1.
  - reflexivity.
  - exists st'. split; [exact Heq|]. split; [exact Htr|exact Hbuf].
Defined.

(** C5 on a run: thread 0 is in an atomic block, where [apply_async] would buffer;
    the direct call sends at once and the thread is still in its block. *)
Lemma original_apply_async_immediate_witness :
  original_apply_async 0 "T1" [1] [] demo_open
    = (Return 1, log (Sent 0 T1) demo_open) ∧
  sent_log (trace (original_apply_async 0 "T1" [1] [] demo_open).2) = [(0, T1)] ∧
  0 ∈ in_atomic_block (original_apply_async 0 "T1" [1] [] demo_open).2.
Proof.
  destruct (original_apply_async_immediate 0 "T1" [1] [] demo_open)
    as (Heq & _ & Hlog & Hat & _).
  split; [exact Heq|]. split; [exact Hlog|].
  rewrite Hat. exact in_atomic_demo_open.
Defined.

(** X2 on a run: with [T1] and [Bad] buffered the handler does not return
    normally, and what it raises is not [IndexError]. *)
Lemma send_tasks_outcome_witness :
  ((∃ st' : demo_state,
      _send_tasks 0 (run (submissions 0 [T1; Bad]) demo_open) = (Return tt, st'))
   ↔ Forall accepts (buffer 0 (run (submissions 0 [T1; Bad]) demo_open))) ∧
  (_send_tasks 0 (run (submissions 0 [T1; Bad]) demo_open)).1 ≠ Raise IndexError.
Proof.
  destruct (send_tasks_outcome 0 (run (submissions 0 [T1; Bad]) demo_open))
    as (Hiff & _ & Hindex & _).
  - apply run_wf, wf_demo_open.
  - split; [exact Hiff|exact Hindex].
Defined.

(** X3 on a run: under [demo_scheduler_mid] thread 0 is about to pop, with
    thread 1 in the middle of an [apply_async]; the pop returns [T1]. *)
Lemma pop_never_fails_witness :
  ∃ (i : demo_invocation) (st' : demo_state),
    list_pop0 (exn:=string) 0 0
      (p_state (fine_run demo_scheduler_mid (spawn demo_programs (init None))))
      = (Return i, st').
Proof.
  destruct (pop_never_fails (exn:=string) demo_programs demo_scheduler_mid (init None) 0 0 [])
    as (i & st' & Heq & _).
  - apply wf_init.
  - vm_compute. reflexivity.
  - exists i, st'. exact Heq.
Defined.

(** X4 on a run: three transactions of thread 0 next to one of thread 1. *)
Lemma transactions_in_sequence_witness :
  sent_by 0 (trace (p_state (fine_run demo_scheduler_long
                               (spawn demo_programs_seq (init None)))))
    = [T1; T2; T3] ∧
  discarded_by 0 (trace (p_state (fine_run demo_scheduler_long
                                    (spawn demo_programs_seq (init None)))))
    = [T3; Bad] ∧
  buffer 0 (p_state (fine_run demo_scheduler_long
                       (spawn demo_programs_seq (init None)))) = [].
Proof.
  apply (transactions_in_sequence 0 demo_transactions demo_programs_seq
           demo_scheduler_long (init None)).
  - apply wf_init.
  - reflexivity.
  - reflexivity.
  - repeat constructor; [exact accepts_T1|exact accepts_T2|exact accepts_T3].
  - vm_compute. reflexivity.
  - vm_compute. reflexivity.
Defined.

(** X5 on a run: [T1] and [T3] go through [apply_async], [T2] and [T1]
    through [original_apply_async]. *)
Lemma direct_submissions_overtake_witness :
  sent_by 0 (trace (run demo_schedule_mixed demo_open)) = [T2; T1; T1; T3] ∧
  buffer 0 (run demo_schedule_mixed demo_open) = [].
Proof.
  destruct (direct_submissions_overtake 0 demo_submissions demo_schedule_mixed demo_open)
    as (reached & kept & Hsplit & Hsent & Hbuf & Hall).
  - exact wf_demo_open.
  - exact in_atomic_demo_open.
  - reflexivity.
  - reflexivity.
  - vm_compute. reflexivity.
  - assert (Hkept : kept = []).
    { apply Hall. repeat constructor; [exact accepts_T1|exact accepts_T3]. }
    rewrite Hkept in Hsplit, Hbuf. rewrite app_nil_r in Hsplit.
    rewrite <- Hsplit in Hsent. split; [exact Hsent|exact Hbuf].
Defined.

(** X6 on a run: [T1], [Bad], [T2], [T3] buffered; the commit fails on
    [Bad], the rollback that follows drops [T2] and [T3]. *)
Lemma failed_commit_then_rollback_witness :
  ∃ st1 st2 : demo_state,
    _send_tasks 0 (run (submissions 0 [T1; Bad; T2; T3]) demo_open)
      = (Raise (TransportError "no route"), st1) ∧
    _discard_tasks (exn:=string) 0 st1 = (Return tt, st2) ∧
    sent_by 0 (trace st2) = [T1; Bad] ∧
    discarded_by 0 (trace st2) = [T2; T3] ∧
    buffer 0 st2 = [].
Proof.
  destruct (failed_commit_then_rollback 0 [T1] Bad [T2; T3] "no route"
              (run (submissions 0 [T1; Bad; T2; T3]) demo_open))
    as (st1 & st2 & H1 & H2 & H3 & H4 & H5 & _).
  - apply run_wf, wf_demo_open.
  - vm_compute. reflexivity.
  - repeat constructor. exact accepts_T1.
  - reflexivity.
  - exists st1, st2. split; [exact H1|]. split; [exact H2|].
    split; [exact H3|]. split; [exact H4|exact H5].
Defined.

(** X7 on a run: list 0 is registered for thread 0 and holds [T1], [T2]. *)
Lemma handlers_drain_in_place_witness :
  ∃ st' : demo_state,
    _discard_tasks (exn:=string) 0 (run (submissions 0 [T1; T2]) demo_open)
      = (Return tt, st') ∧
    task_queue 0 st' = Some 0 ∧
    heap st' !! 0 = Some [].
Proof.
  destruct (handlers_drain_in_place (exn:=string) 0 0
              (run (submissions 0 [T1; T2]) demo_open))
    as [(st' & Heq & Hq & Hh & _) _].
  - apply run_wf, wf_demo_open.
  - vm_compute. reflexivity.
  - exists st'. split; [exact Heq|]. split; [exact Hq|exact Hh].
Defined.

(** X8 on a run: under [demo_scheduler_mid] the call of thread 0 holds list
    0, which is the list registered for thread 0. *)
Lemma lists_never_shared_witness :
  task_queue 0 (p_state (fine_run demo_scheduler_mid (spawn demo_programs (init None))))
    = Some 0.
Proof.
  destruct (lists_never_shared demo_programs demo_scheduler_mid (init None) (wf_init None))
    as [_ Hframes].
  apply (Hframes 0 (Thread (At_pop 0) []) 0).
  - vm_compute. reflexivity.
  - reflexivity.
Defined.

(** X11 on a run: thread 2 of [demo_schedule] never enters an atomic block. *)
Lemma no_transaction_never_defers_witness :
  buffer 2 (run demo_schedule (init None)) = [] ∧
  appended_by 2 (trace (run demo_schedule (init None))) = [] ∧
  sent_by 2 (trace (run demo_schedule (init None))) = [T3].
Proof.
  apply (no_transaction_never_defers demo_schedule None 2).
  change (calls_of 2 demo_schedule) with [submit T3; Signal_post_commit].
  repeat constructor; discriminate.
Defined.
